(** * Dist-resp: the social-media triage and inference services

    A shallow embedding of [server/services/socialMedia.js]
    ([SocialMediaService] and [GeminiService]) together with the
    parts of the JavaScript platform those services rely on
    (string methods, regular expressions, [Array.prototype.sort],
    the scheme part of the URL parser).

    Conventions of the model.
    - A JavaScript string is a [string]: one [ascii] per code unit, so the
      model covers texts whose code units lie below U+0100.
    - A timestamp is the instant (milliseconds since the epoch, a [Z]) that
      [new Date(ts).getTime()] yields for it.
    - JavaScript numbers that are only stored and compared (confidences,
      scores, time-to-live hours) are rationals [Q], written as the
      decimal literals of the source; one that may be missing is an
      [option Q], and one that may be NaN an [option Z].
    - The cache service, the logger and the HTTP client are collaborators
      that live outside the file; they are a record of answers ([World])
      and every call to them is recorded in a trace of events. *)

From Stdlib Require Import Bool Arith ZArith QArith Lia List Ascii String.
From Stdlib Require Import Permutation Sorted.
Import ListNotations.

Local Close Scope Q_scope.
Local Open Scope string_scope.
Local Open Scope list_scope.

Set Implicit Arguments.

(* ================================================================= *)
(** ** Characters and strings of the platform *)

Module Js.

Definition code (c : ascii) : nat := nat_of_ascii c.

Definition in_range (lo hi : nat) (c : ascii) : bool :=
  ((lo <=? code c)%nat && (code c <=? hi)%nat)%bool.

Definition is_upper (c : ascii) : bool := in_range 65 90 c.
Definition is_lower (c : ascii) : bool := in_range 97 122 c.
Definition is_digit (c : ascii) : bool := in_range 48 57 c.

(** [\w] of a regular expression without the [u] flag. *)
Definition is_word_char (c : ascii) : bool :=
  is_upper c || is_lower c || is_digit c || (code c =? 95)%nat.

(** WhiteSpace and LineTerminator code units below U+0100: TAB, LF, VT,
    FF, CR, SP and NBSP.  This is the set of [\s] and of [trim]. *)
Definition is_space (c : ascii) : bool :=
  in_range 9 13 c || (code c =? 32)%nat || (code c =? 160)%nat.

(** Latin-1 capital letters other than the ASCII ones: U+00C0..U+00DE
    without the multiplication sign U+00D7. *)
Definition is_upper_latin1 (c : ascii) : bool :=
  in_range 192 222 c && negb (code c =? 215)%nat.

Definition is_lower_latin1 (c : ascii) : bool :=
  in_range 224 254 c && negb (code c =? 247)%nat.

Definition lower_char (c : ascii) : ascii :=
  if is_upper c || is_upper_latin1 c then ascii_of_nat (code c + 32) else c.

(** Canonicalize of the regular-expression semantics (no [u] flag): the
    upper-case form when it is a single code unit.  U+00DF, whose
    upper-case form has two code units, stays as it is; so do U+00B5 and
    U+00FF here, whose upper-case forms lie outside the range and are the
    canonical form of no other character of the range. *)
Definition canonicalize (c : ascii) : ascii :=
  if is_lower c || is_lower_latin1 c then ascii_of_nat (code c - 32) else c.

Fixpoint map_string (f : ascii -> ascii) (s : string) : string :=
  match s with
  | EmptyString => EmptyString
  | String c s' => String (f c) (map_string f s')
  end.

(** [String.prototype.toLowerCase]. *)
Definition toLowerCase (s : string) : string := map_string lower_char s.

(** [String.prototype.startsWith]. *)
Definition startsWith (s p : string) : bool := String.prefix p s.

(** [String.prototype.includes]: [kw] occurs at some position of [s]. *)
Fixpoint includes (s kw : string) : bool :=
  String.prefix kw s ||
  match s with
  | EmptyString => false
  | String _ s' => includes s' kw
  end.

(** [Array.prototype.join]. *)
Fixpoint join (sep : string) (l : list string) : string :=
  match l with
  | [] => ""
  | [x] => x
  | x :: l' => x ++ sep ++ join sep l'
  end.

Fixpoint drop_spaces (l : list ascii) : list ascii :=
  match l with
  | c :: l' => if is_space c then drop_spaces l' else l
  | [] => []
  end.

(** [String.prototype.trim]. *)
Definition trim (s : string) : string :=
  string_of_list_ascii
    (rev (drop_spaces (rev (drop_spaces (list_ascii_of_string s))))).

(** [String.prototype.substring(0, n)]. *)
Definition substring0 (n : nat) (s : string) : string := String.substring 0 n s.

(** A non-empty string is truthy. *)
Definition truthy (s : string) : bool := negb (s =? "").

(** Decimal rendering of a natural number, as template literals do for
    array lengths. *)
Fixpoint digits (fuel n : nat) (acc : string) : string :=
  match fuel with
  | O => acc
  | S fuel' =>
      let acc' := String (ascii_of_nat (48 + n mod 10)) acc in
      if (n / 10 =? 0)%nat then acc' else digits fuel' (n / 10) acc'
  end.

Definition show_nat (n : nat) : string := digits (S n) n "".

End Js.

(* ================================================================= *)
(** ** Regular expressions

    A backtracking matcher for the fragment of ECMAScript regular
    expressions that the services use: literals, character classes,
    sequence, ordered alternation, greedy repetition, [\b], [^] and [$],
    with or without the [i] flag.  Groups only delimit sub-expressions:
    the services read whole matches, never captures. *)

Module Regex.

Inductive regex : Type :=
| Eps
| Chr (c : ascii)
| Cls (ranges : list (nat * nat))
| Seq (r1 r2 : regex)
| Alt (r1 r2 : regex)
| Star (r : regex)
| WordB
| Bos
| Eos.

(** [r+] is [r] followed by [r*]. *)
Definition Plus (r : regex) : regex := Seq r (Star r).

Fixpoint lit (s : string) : regex :=
  match s with
  | EmptyString => Eps
  | String c EmptyString => Chr c
  | String c s' => Seq (Chr c) (lit s')
  end.

Fixpoint alts (l : list string) : regex :=
  match l with
  | [] => Eps
  | [w] => lit w
  | w :: l' => Alt (lit w) (alts l')
  end.

Fixpoint seqs (l : list regex) : regex :=
  match l with
  | [] => Eps
  | [r] => r
  | r :: l' => Seq r (seqs l')
  end.

Definition class_AZ : regex := Cls [(65, 90)].
Definition class_az : regex := Cls [(97, 122)].
Definition class_d : regex := Cls [(48, 57)].
Definition class_s : regex := Cls [(9, 13); (32, 32); (160, 160)].

Definition in_ranges (ranges : list (nat * nat)) (c : ascii) : bool :=
  existsb (fun r => Js.in_range (fst r) (snd r) c) ranges.

(** With the [i] flag a character matches a class when some member of the
    class has the same canonical form. *)
Definition class_matches (ci : bool) (ranges : list (nat * nat)) (c : ascii)
  : bool :=
  if ci
  then in_ranges ranges c || in_ranges ranges (Js.canonicalize c)
       || in_ranges ranges (Js.lower_char c)
  else in_ranges ranges c.

Definition char_matches (ci : bool) (p c : ascii) : bool :=
  if ci then Ascii.eqb (Js.canonicalize p) (Js.canonicalize c)
  else Ascii.eqb p c.

Definition is_word (o : option ascii) : bool :=
  match o with
  | Some c => Js.is_word_char c
  | None => false
  end.

Definition continuation : Type :=
  option ascii -> list ascii -> option (list ascii).

(** Greedy repetition of [step]: one more iteration if it consumes
    something and the rest of the pattern then matches, else the rest of
    the pattern right here.  An iteration that consumes nothing is
    rejected, as RepeatMatcher does; the fuel is the length of the text,
    which such iterations cannot exhaust. *)
Fixpoint star_loop (step : option ascii -> list ascii -> continuation ->
                           option (list ascii))
    (k : continuation) (fuel : nat) (prev : option ascii) (s : list ascii)
  : option (list ascii) :=
  match fuel with
  | O => k prev s
  | S fuel' =>
      match step prev s
              (fun p s' =>
                 if (List.length s' <? List.length s)%nat
                 then star_loop step k fuel' p s' else None) with
      | Some e => Some e
      | None => k prev s
      end
  end.

(** The matcher, in continuation-passing style.  A position is the
    character before it (if any) and the text after it; the continuation
    receives the position reached and answers with the end of the whole
    match, or [None] to make the matcher try its next choice. *)
Fixpoint run (ci : bool) (r : regex) (prev : option ascii) (s : list ascii)
    (k : continuation) {struct r} : option (list ascii) :=
  match r with
  | Eps => k prev s
  | Chr p =>
      match s with
      | c :: s' => if char_matches ci p c then k (Some c) s' else None
      | [] => None
      end
  | Cls ranges =>
      match s with
      | c :: s' => if class_matches ci ranges c then k (Some c) s' else None
      | [] => None
      end
  | Seq r1 r2 => run ci r1 prev s (fun p s' => run ci r2 p s' k)
  | Alt r1 r2 =>
      match run ci r1 prev s k with
      | Some e => Some e
      | None => run ci r2 prev s k
      end
  | Star r1 => star_loop (run ci r1) k (List.length s) prev s
  | WordB => if xorb (is_word prev) (is_word (hd_error s)) then k prev s else None
  | Bos => match prev with None => k prev s | Some _ => None end
  | Eos => match s with [] => k prev s | _ :: _ => None end
  end.

(** One attempt at the current position: the text left after the match. *)
Definition match_here (ci : bool) (r : regex) (prev : option ascii)
    (s : list ascii) : option (list ascii) :=
  run ci r prev s (fun _ rest => Some rest).

Definition last_of (prev : option ascii) (l : list ascii) : option ascii :=
  match rev l with
  | c :: _ => Some c
  | [] => prev
  end.

(** A successful search: the text skipped before the match, the matched
    text, the character before the end of the match and the text after. *)
Record found : Type := Found {
  skipped : list ascii;
  matched : list ascii;
  prev_after : option ascii;
  rest_after : list ascii
}.

(** RegExpBuiltinExec: try the current position, then each later one. *)
Fixpoint search (ci : bool) (r : regex) (prev : option ascii) (s : list ascii)
  : option found :=
  match match_here ci r prev s with
  | Some rest =>
      let m := firstn (List.length s - List.length rest) s in
      Some (Found [] m (last_of prev m) rest)
  | None =>
      match s with
      | [] => None
      | c :: s' =>
          match search ci r (Some c) s' with
          | Some f => Some (Found (c :: skipped f) (matched f)
                                  (prev_after f) (rest_after f))
          | None => None
          end
      end
  end.

(** [RegExp.prototype.test] / a non-global [match] used as a condition. *)
Definition test (ci : bool) (r : regex) (s : string) : bool :=
  match search ci r None (list_ascii_of_string s) with
  | Some _ => true
  | None => false
  end.

(** [String.prototype.match] with the [g] flag: every match, left to
    right, each search resuming where the previous match ended (one
    character further after an empty match).  [None] is the [null] that
    [match] returns when there is no match at all. *)
Fixpoint match_loop (fuel : nat) (ci : bool) (r : regex) (prev : option ascii)
    (s : list ascii) : list string :=
  match fuel with
  | O => []
  | S fuel' =>
      match search ci r prev s with
      | None => []
      | Some f =>
          string_of_list_ascii (matched f) ::
          match matched f, rest_after f with
          | [], [] => []
          | [], c :: rest => match_loop fuel' ci r (Some c) rest
          | _ :: _, rest => match_loop fuel' ci r (prev_after f) rest
          end
      end
  end.

Definition match_global (ci : bool) (r : regex) (s : string)
  : option (list string) :=
  let l := list_ascii_of_string s in
  match match_loop (S (List.length l)) ci r None l with
  | [] => None
  | ms => Some ms
  end.

(** [String.prototype.replace] with a non-global pattern: the first match
    is replaced. *)
Definition replace_first (ci : bool) (r : regex) (by_ : string) (s : string)
  : string :=
  match search ci r None (list_ascii_of_string s) with
  | None => s
  | Some f =>
      string_of_list_ascii (skipped f) ++ by_ ++
      string_of_list_ascii (rest_after f)
  end.

(** [String.prototype.replace] with the [g] flag. *)
Fixpoint replace_loop (fuel : nat) (ci : bool) (r : regex) (by_ : string)
    (prev : option ascii) (s : list ascii) : string :=
  match fuel with
  | O => string_of_list_ascii s
  | S fuel' =>
      match search ci r prev s with
      | None => string_of_list_ascii s
      | Some f =>
          string_of_list_ascii (skipped f) ++ by_ ++
          match matched f, rest_after f with
          | [], [] => ""
          | [], c :: rest =>
              String c (replace_loop fuel' ci r by_ (Some c) rest)
          | _ :: _, rest => replace_loop fuel' ci r by_ (prev_after f) rest
          end
      end
  end.

Definition replace_all (ci : bool) (r : regex) (by_ : string) (s : string)
  : string :=
  let l := list_ascii_of_string s in
  replace_loop (S (List.length l)) ci r by_ None l.

End Regex.

(* ================================================================= *)
(** ** [Buffer.from(s).toString('base64')] *)

Module Base64.

Definition alphabet : list ascii :=
  list_ascii_of_string
    "ABCDEFGHIJKLMNOPQRSTUVWXYZabcdefghijklmnopqrstuvwxyz0123456789+/".

Definition digit (n : nat) : ascii := nth n alphabet "="%char.

(** UTF-8 bytes of a code unit below U+0100. *)
Definition utf8 (c : ascii) : list nat :=
  let n := Js.code c in
  if (n <? 128)%nat then [n] else [192 + n / 64; 128 + n mod 64]%nat.

Fixpoint encode (bytes : list nat) : list ascii :=
  match bytes with
  | [] => []
  | [a] => [digit (a / 4); digit (a mod 4 * 16); "="; "="]%char
  | [a; b] =>
      [digit (a / 4); digit (a mod 4 * 16 + b / 16);
       digit (b mod 16 * 4); "="%char]
  | a :: b :: c :: rest =>
      digit (a / 4) :: digit (a mod 4 * 16 + b / 16) ::
      digit (b mod 16 * 4 + c / 64) :: digit (c mod 64) :: encode rest
  end.

Definition of_string (s : string) : string :=
  string_of_list_ascii (encode (flat_map utf8 (list_ascii_of_string s))).

End Base64.

(* ================================================================= *)
(** ** Data model *)

Record Engagement : Type := {
  likes : Z;
  shares : Z;
  replies : Z
}.

(** A report as the fixture generator builds it. *)
Record Report : Type := {
  id : string;
  user : string;
  content : string;
  timestamp : Z;
  priority : string;
  location : string;
  keywords : list string;
  platform : string;
  verified : bool;
  engagement : Engagement
}.

(** The object [extractLocation] returns; [error] is present on the error
    path only. *)
Module Extraction.
Record t : Type := {
  location : string;
  confidence : Q;
  method : string;
  error : option string
}.
End Extraction.

(** What the named-entity service answers: a list of entities, or a body
    that is not an array. *)
Record Entity : Type := {
  entity_group : string;
  word : string
}.

Inductive ner_data : Type :=
| NerEntities (entities : list Entity)
| NerNotArray.

(** What the image-classification service answers.  An entry has a label
    and a score; the score is a number, or is missing ([None], the
    [undefined] that reading it gives).  [ItemBad msg] is an entry whose
    label cannot be read as a string: reading it raises a TypeError whose
    message is [msg]. *)
Inductive class_item : Type :=
| Item (label : string) (score : option Q)
| ItemBad (message : string).

Inductive class_data : Type :=
| ClassArray (items : list class_item)
| ClassNotArray.

Record Headers : Type := {
  content_type : option string;
  content_length : option string
}.

Inductive Details : Type :=
| DetailsReason (reason : string)
| DetailsError (error : string)
| DetailsErrorAt (error : string) (timestamp : string)
| DetailsAnalysis (raw_analysis : class_data) (image_size : nat)
    (timestamp : string)
| DetailsContentType (content_type : option string)
| DetailsBasic (content_type : string) (content_length : option string)
    (method : string).

(** The object [verifyImage] returns.  Its confidence is a number, or
    [undefined] ([None]) when it is the missing score of an entry. *)
Module Verification.
Record t : Type := {
  status : string;
  analysis : string;
  confidence : option Q;
  details : Details
}.
End Verification.

(* ================================================================= *)
(** ** Effects: collaborators, events and the monad of the services *)

Inductive outcome (A : Type) : Type :=
| Ok (a : A)
| Throw (message : string).
Arguments Ok {A} a.
Arguments Throw {A} message.

Inductive cache_value : Type :=
| CacheReports (reports : list Report)
| CacheLocation (r : Extraction.t)
| CacheImage (r : Verification.t).

(** Every call that leaves the service.  [ttlHours] is the third argument
    of [cache.set], [None] when the call site passes none. *)
Inductive event : Type :=
| CacheGet (key : string)
| CacheSet (key : string) (value : cache_value) (ttlHours : option Q)
| Log (level message : string)
| HttpPost (url : string)
| HttpGet (url : string)
| HttpHead (url : string).

(** The answers of the collaborators during one operation.  Each service
    reads the cache under its own key prefix, hence the three typed views
    of [cache.get]; [None] is a miss.  Number formatting and the part of
    URL parsing after the scheme belong to the platform. *)
Record World : Type := {
  GEMINI_API_KEY : option string;
  HUGGINGFACE_API_KEY : option string;
  Date_now : Z;
  Date_toISOString : string;
  number_toString : Q -> string;
  percent_toFixed1 : Q -> string;
  url_rest_parses : string -> bool;
  cache_get_reports : string -> outcome (option (list Report));
  cache_get_location : string -> outcome (option Extraction.t);
  cache_get_image : string -> outcome (option Verification.t);
  cache_set : string -> cache_value -> option Q -> outcome unit;
  post_ner : string -> outcome ner_data;
  get_image : string -> outcome string;
  post_classify : string -> outcome class_data;
  head_image : string -> outcome Headers
}.

Definition trace : Type := list event.

(** A computation appends events to the trace and returns or throws. *)
Definition M (A : Type) : Type := trace -> outcome A * trace.

Definition ret {A : Type} (a : A) : M A := fun t => (Ok a, t).

Definition throw {A : Type} (message : string) : M A :=
  fun t => (Throw message, t).

Definition bind {A B : Type} (m : M A) (f : A -> M B) : M B :=
  fun t =>
    match m t with
    | (Ok a, t') => f a t'
    | (Throw e, t') => (Throw e, t')
    end.

Definition try_catch {A : Type} (m : M A) (handler : string -> M A) : M A :=
  fun t =>
    match m t with
    | (Ok a, t') => (Ok a, t')
    | (Throw e, t') => handler e t'
    end.

(** A call to a collaborator: the event is recorded, then the answer of
    the world is returned or thrown. *)
Definition call {A : Type} (e : event) (answer : outcome A) : M A :=
  fun t => (answer, t ++ [e]).

Definition logger (level message : string) : M unit :=
  call (Log level message) (Ok tt).

Declare Scope js_scope.
Delimit Scope js_scope with js.
Notation "x <- m ;; k" := (bind m (fun x => k))
  (at level 61, m at next level, right associativity) : js_scope.
Notation "m ;;; k" := (bind m (fun _ => k))
  (at level 61, right associativity) : js_scope.

(** The result and the events of an operation started on an empty trace. *)
Definition result_of {A : Type} (m : M A) : outcome A := fst (m []).
Definition events_of {A : Type} (m : M A) : trace := snd (m []).

Local Open Scope js_scope.

(* ================================================================= *)
(** ** The part of [new URL(url)] that decides the scheme *)

Module Url.

Record URL : Type := { protocol : string }.

Definition is_c0_or_space (c : ascii) : bool := (Js.code c <=? 32)%nat.

Definition is_tab_or_newline (c : ascii) : bool :=
  (Js.code c =? 9)%nat || (Js.code c =? 10)%nat || (Js.code c =? 13)%nat.

Definition is_alpha (c : ascii) : bool := Js.is_upper c || Js.is_lower c.

Definition is_scheme_char (c : ascii) : bool :=
  is_alpha c || Js.is_digit c ||
  (Js.code c =? 43)%nat || (Js.code c =? 45)%nat || (Js.code c =? 46)%nat.

Fixpoint drop_c0 (l : list ascii) : list ascii :=
  match l with
  | c :: l' => if is_c0_or_space c then drop_c0 l' else l
  | [] => []
  end.

(** Leading and trailing C0 controls and spaces are stripped, tabs and
    newlines are removed everywhere. *)
Definition preprocess (input : string) : list ascii :=
  filter (fun c => negb (is_tab_or_newline c))
    (rev (drop_c0 (rev (drop_c0 (list_ascii_of_string input))))).

(** Scheme state: scheme characters up to the colon. *)
Fixpoint scheme_state (l : list ascii) (buffer : list ascii)
  : option (list ascii) :=
  match l with
  | [] => None
  | c :: l' =>
      if (Js.code c =? 58)%nat then Some (rev buffer)
      else if is_scheme_char c then scheme_state l' (Js.lower_char c :: buffer)
      else None
  end.

(** Scheme start state.  Without a base URL an input with no scheme is a
    failure. *)
Definition scheme_of (input : string) : option string :=
  match preprocess input with
  | c :: l =>
      if is_alpha c
      then option_map string_of_list_ascii (scheme_state l [Js.lower_char c])
      else None
  | [] => None
  end.

(** [new URL(url)]: [None] when the constructor throws.  Whether the text
    after the scheme parses is the answer of the platform. *)
Definition parse (w : World) (url : string) : option URL :=
  match scheme_of url with
  | Some scheme =>
      if url_rest_parses w url then Some {| protocol := scheme ++ ":" |}
      else None
  | None => None
  end.

End Url.

(* ================================================================= *)
(** ** GeminiService *)

Module GeminiService.

(** [process.env.GEMINI_API_KEY || process.env.HUGGINGFACE_API_KEY] *)
Definition hfToken (w : World) : option string :=
  match GEMINI_API_KEY w with
  | Some k => if Js.truthy k then Some k else HUGGINGFACE_API_KEY w
  | None => HUGGINGFACE_API_KEY w
  end.

(** Truthiness of [this.hfToken]. *)
Definition has_token (w : World) : bool :=
  match hfToken w with
  | Some k => Js.truthy k
  | None => false
  end.

Definition textModel : string := "dslim/bert-base-NER".
Definition imageModel : string := "google/vit-base-patch16-224".

Definition ner_url : string :=
  "https://api-inference.huggingface.co/models/" ++ textModel.
Definition classify_url : string :=
  "https://api-inference.huggingface.co/models/" ++ imageModel.

Import Regex.

(** [[A-Z][a-z]+] and [[A-Z][a-z]+(?:\s+[A-Z][a-z]+)*] *)
Definition cap_word : regex := Seq class_AZ (Plus class_az).
Definition cap_phrase : regex :=
  Seq cap_word (Star (Seq (Plus class_s) cap_word)).

Record pattern : Type := { source : regex; ignoreCase : bool }.

Definition city_state : pattern :=
  {| source := seqs [WordB; cap_phrase; Chr ","; Star class_s;
                     Alt (Seq class_AZ class_AZ) cap_word; WordB];
     ignoreCase := false |}.

Definition street_address : pattern :=
  {| source := seqs [WordB; Plus class_d; Plus class_s; cap_phrase;
                     Plus class_s;
                     alts ["Street"; "St"; "Avenue"; "Ave"; "Road"; "Rd";
                           "Boulevard"; "Blvd"; "Drive"; "Dr"; "Lane"; "Ln";
                           "Way"; "Place"; "Pl"];
                     WordB];
     ignoreCase := true |}.

Definition neighborhood : pattern :=
  {| source := seqs [WordB; alts ["in"; "at"; "near"; "around"]; Plus class_s;
                     cap_phrase; Plus class_s;
                     alts ["Area"; "District"; "Neighborhood"; "Heights";
                           "Park"; "Center"; "Square"; "Plaza"];
                     WordB];
     ignoreCase := true |}.

Definition landmark : pattern :=
  {| source := seqs [WordB; alts ["at"; "near"]; Plus class_s; cap_phrase;
                     Plus class_s;
                     alts ["Bridge"; "Building"; "Hospital"; "School";
                           "University"; "Mall"; "Airport"; "Station"];
                     WordB];
     ignoreCase := true |}.

Definition general_indicator : pattern :=
  {| source := seqs [WordB; alts ["in"; "at"; "near"]; Plus class_s;
                     cap_phrase; WordB];
     ignoreCase := false |}.

Definition locationPatterns : list pattern :=
  [city_state; street_address; neighborhood; landmark; general_indicator].

(** [/^(?:in|at|near|around)\s+/i] *)
Definition leading_preposition : regex :=
  seqs [Bos; alts ["in"; "at"; "near"; "around"]; Plus class_s].

Definition stop_words : list string :=
  ["the"; "and"; "but"; "for"; "are"; "was"; "were"; "been";
   "have"; "has"; "had"; "will"; "would"; "could"; "should"].

(** [/^(the|and|but|...|should)$/i] *)
Definition stop_word : regex := seqs [Bos; alts stop_words; Eos].

(** [match.replace(/^(?:in|at|near|around)\s+/i, '').trim()] *)
Definition clean (m : string) : string :=
  Js.trim (replace_first true leading_preposition "" m).

(** [description.match(pattern)] then the [push] of the cleaned matches. *)
Definition push_matches (description : string) (locations : list string)
    (p : pattern) : list string :=
  match match_global (ignoreCase p) (source p) description with
  | Some matches => locations ++ map clean matches
  | None => locations
  end.

(** [[...new Set(locations)]]: the first occurrence of each string, in
    insertion order. *)
Definition set_add (seen : list string) (x : string) : list string :=
  if existsb (String.eqb x) seen then seen else seen ++ [x].

Definition set_of (l : list string) : list string := fold_left set_add l [].

Definition keep_location (loc : string) : bool :=
  (2 <? String.length loc)%nat && negb (test true stop_word loc).

Definition extractLocationWithPatterns (description : string)
  : option string :=
  let locations := fold_left (push_matches description) locationPatterns [] in
  let filteredLocations := filter keep_location (set_of locations) in
  match filteredLocations with
  | first :: _ => Some first
  | [] => None
  end.

(** [/\b(street|avenue|road|park|bridge|center)\b/i] *)
Definition place_word : regex :=
  seqs [WordB; alts ["street"; "avenue"; "road"; "park"; "bridge"; "center"];
        WordB].

Definition is_location_entity (ent : Entity) : bool :=
  (entity_group ent =? "LOC") || (entity_group ent =? "ORG") ||
  ((entity_group ent =? "MISC") && test true place_word (word ent)).

Definition is_token (word : string) : bool :=
  Js.truthy word && negb (word =? "[CLS]") && negb (word =? "[SEP]").

Definition ner_locations (entities : list Entity) : string :=
  Js.trim
    (replace_all false (lit "##") ""
       (Js.join " "
          (filter is_token (map word (filter is_location_entity entities))))).

(** The function returns [null] (or nothing at all when the body is not an
    array): both are [None]. *)
Definition extractLocationWithNER (w : World) (description : string)
  : M (option string) :=
  try_catch
    (if negb (has_token w)
     then
       logger "warn"
         "No Hugging Face API key provided, using pattern matching only" ;;;
       ret None
     else
       entities <- call (HttpPost ner_url) (post_ner w description) ;;
       match entities with
       | NerEntities ents =>
           let locations := ner_locations ents in
           ret (if Js.truthy locations then Some locations else None)
       | NerNotArray => ret None
       end)
    (fun message =>
       logger "error" ("NER location extraction error: " ++ message) ;;;
       ret None).

(** [!extractedLocation || extractedLocation === 'Unknown'] *)
Definition ner_failed (extracted : option string) : bool :=
  match extracted with
  | Some l => negb (Js.truthy l) || (l =? "Unknown")
  | None => true
  end.

Definition answered (extracted : option string) : bool :=
  match extracted with
  | Some l => Js.truthy l
  | None => false
  end.

Definition result_data (extracted : option string) : Extraction.t :=
  {| Extraction.location :=
       if answered extracted
       then match extracted with Some l => l | None => "" end
       else "Location extraction failed";
     Extraction.confidence := if answered extracted then 8 # 10 else 1 # 10;
     Extraction.method := if answered extracted then "NER+Patterns" else "Failed";
     Extraction.error := None |}.

Definition location_key (description : string) : string :=
  "location_extract_" ++ Js.substring0 50 (Base64.of_string description).

Definition extractLocation (w : World) (description : string)
  : M Extraction.t :=
  let cacheKey := location_key description in
  try_catch
    (cached <- call (CacheGet cacheKey) (cache_get_location w cacheKey) ;;
     match cached with
     | Some hit => logger "info" "Location extraction cache hit" ;;; ret hit
     | None =>
         ner <- extractLocationWithNER w description ;;
         let extractedLocation :=
           if ner_failed ner then extractLocationWithPatterns description
           else ner in
         let r := result_data extractedLocation in
         call (CacheSet cacheKey (CacheLocation r) None)
              (cache_set w cacheKey (CacheLocation r) None) ;;;
         logger "info"
           ("Location extracted: " ++ Extraction.location r ++
            " (confidence: " ++ number_toString w (Extraction.confidence r) ++
            ")") ;;;
         ret r
     end)
    (fun message =>
       logger "error" ("Location extraction error: " ++ message) ;;;
       ret {| Extraction.location := "Location extraction failed";
              Extraction.confidence := 0;
              Extraction.method := "Error";
              Extraction.error := Some message |}).

(** [isValidImageUrl]: the constructor throwing is caught and gives
    [false]. *)
Definition isValidImageUrl (w : World) (url : string) : bool :=
  match Url.parse w url with
  | Some urlObj =>
      (Url.protocol urlObj =? "http:") || (Url.protocol urlObj =? "https:")
  | None => false
  end.

Definition disasterKeywords : list string :=
  ["flood"; "fire"; "damage"; "destruction"; "emergency"; "disaster"].

(** [(topResult.score * 100).toFixed(1)]: for a number, the answer of the
    platform; a missing score makes the product NaN, whose text is "NaN". *)
Definition percent_text (w : World) (score : option Q) : string :=
  match score with
  | Some q => percent_toFixed1 w q
  | None => "NaN"
  end.

Definition analyzeImageWithHuggingFace (w : World) (imageUrl : string)
  : M Verification.t :=
  try_catch
    (image <- call (HttpGet imageUrl) (get_image w imageUrl) ;;
     analysis <- call (HttpPost classify_url) (post_classify w image) ;;
     let details :=
       DetailsAnalysis analysis (String.length image) (Date_toISOString w) in
     match analysis with
     | ClassArray (Item label score :: _) =>
         let analysisText :=
           ("Image classification: " ++ label ++ " (confidence: " ++
            percent_text w score ++ "%)")%string in
         let isDisasterRelated :=
           existsb (fun keyword => Js.includes (Js.toLowerCase label) keyword)
                   disasterKeywords in
         ret {| Verification.status :=
                  if isDisasterRelated then "authentic" else "analyzed";
                Verification.analysis :=
                  if isDisasterRelated
                  then analysisText ++ " - Appears to be disaster-related content"
                  else analysisText;
                Verification.confidence := score;
                Verification.details := details |}
     | ClassArray (ItemBad message :: _) => throw message
     | ClassArray [] | ClassNotArray =>
         ret {| Verification.status := "analyzed";
                Verification.analysis := "Image analyzed successfully";
                Verification.confidence := Some (7 # 10)%Q;
                Verification.details := details |}
     end)
    (fun message => throw ("Hugging Face analysis failed: " ++ message)).

Definition show_optional (o : option string) : string :=
  match o with
  | Some s => s
  | None => "undefined"
  end.

Definition analyzeImageBasic (w : World) (imageUrl : string)
  : M Verification.t :=
  try_catch
    (headers <- call (HttpHead imageUrl) (head_image w imageUrl) ;;
     let contentType := content_type headers in
     let contentLength := content_length headers in
     match contentType with
     | Some ct =>
         if Js.truthy ct && Js.startsWith ct "image/"
         then
           ret {| Verification.status := "basic_check";
                  Verification.analysis :=
                    "Image URL validated. Type: " ++ ct ++ ", Size: " ++
                    show_optional contentLength ++ " bytes";
                  Verification.confidence := Some (5 # 10)%Q;
                  Verification.details :=
                    DetailsBasic ct contentLength "basic_validation" |}
         else
           ret {| Verification.status := "invalid";
                  Verification.analysis := "URL does not point to a valid image";
                  Verification.confidence := Some 0%Q;
                  Verification.details := DetailsContentType contentType |}
     | None =>
         ret {| Verification.status := "invalid";
                Verification.analysis := "URL does not point to a valid image";
                Verification.confidence := Some 0%Q;
                Verification.details := DetailsContentType contentType |}
     end)
    (fun message => throw ("Basic image validation failed: " ++ message)).

Definition invalid_url_result : Verification.t :=
  {| Verification.status := "invalid";
     Verification.analysis := "Invalid image URL provided";
     Verification.confidence := Some 0%Q;
     Verification.details := DetailsReason "Invalid URL format" |}.

Definition performImageVerification (w : World) (imageUrl : string)
  : M Verification.t :=
  try_catch
    (if negb (isValidImageUrl w imageUrl)
     then ret invalid_url_result
     else if has_token w
          then analyzeImageWithHuggingFace w imageUrl
          else analyzeImageBasic w imageUrl)
    (fun message =>
       ret {| Verification.status := "error";
              Verification.analysis := "Image analysis failed: " ++ message;
              Verification.confidence := Some 0%Q;
              Verification.details := DetailsError message |}).

Definition image_key (imageUrl : string) : string :=
  "image_verify_" ++ Js.substring0 50 (Base64.of_string imageUrl).

Definition verifyImage (w : World) (imageUrl : string) : M Verification.t :=
  let cacheKey := image_key imageUrl in
  try_catch
    (cached <- call (CacheGet cacheKey) (cache_get_image w cacheKey) ;;
     match cached with
     | Some hit => logger "info" "Image verification cache hit" ;;; ret hit
     | None =>
         verificationResult <- performImageVerification w imageUrl ;;
         call (CacheSet cacheKey (CacheImage verificationResult) None)
              (cache_set w cacheKey (CacheImage verificationResult) None) ;;;
         logger "info"
           ("Image verification completed: " ++
            Verification.status verificationResult) ;;;
         ret verificationResult
     end)
    (fun message =>
       logger "error" ("Image verification error: " ++ message) ;;;
       ret {| Verification.status := "error";
              Verification.analysis :=
                "Image verification failed due to technical error";
              Verification.confidence := Some 0%Q;
              Verification.details :=
                DetailsErrorAt message (Date_toISOString w) |}).

End GeminiService.

(* ================================================================= *)
(** ** [Array.prototype.sort]

    A comparator returns a number, which may be NaN ([None]); the sort
    reads a NaN as +0.  The sort of the platform is stable, and with a
    comparator that is a consistent ordering of the elements its result is
    determined: the elements in non-decreasing order of the comparator,
    equal ones in their original order.  Insertion from the right computes
    that list.  For elements on which the comparator is not consistent the
    standard leaves the order to the implementation: what is stated below
    about the order of a result is stated for elements on which the
    comparator is consistent. *)

Module JsArray.

Section Sort.
Variable A : Type.
Variable compareFn : A -> A -> option Z.

(** SortCompare of the standard. *)
Definition SortCompare (x y : A) : Z :=
  match compareFn x y with
  | Some v => v
  | None => 0%Z
  end.

Fixpoint insert (x : A) (sorted : list A) : list A :=
  match sorted with
  | [] => [x]
  | y :: rest =>
      if (0 <? SortCompare x y)%Z then y :: insert x rest else x :: sorted
  end.

Definition sort (l : list A) : list A := fold_right insert [] l.

(** [x] may stand before [y]: the comparator does not put [y] first. *)
Definition before (x y : A) : Prop := (SortCompare x y <= 0)%Z.

End Sort.

End JsArray.

(* ================================================================= *)
(** ** SocialMediaService *)

Module SocialMediaService.

Definition minutes_ago (w : World) (m : Z) : Z :=
  (Date_now w - m * 60 * 1000)%Z.

Definition tweet_id (disasterId : string) (n : string) : string :=
  "tweet_" ++ disasterId ++ "_" ++ n.

(** The contents of the reports 2 and 6 begin with a pictograph, two code
    units outside the modelled range of characters.  No text of the range
    contains them, so a search of the content for such a text, which is
    all that the services do with a content, finds what it finds in the
    rest of the content.  The contents stand here without their
    pictograph, from the space that follows it. *)
Definition baseReports (w : World) (disasterId : string) : list Report :=
  [ {| id := tweet_id disasterId "1";
       user := "citizen_reporter";
       content := "#FloodAlert Water levels rising rapidly in downtown area. Multiple streets flooded. Avoid 5th Avenue between 42nd and 50th Street. Emergency services on scene.";
       timestamp := minutes_ago w 15;
       priority := "urgent";
       location := "Manhattan, NYC";
       keywords := ["flood"; "emergency"; "water"; "streets"];
       platform := "Twitter";
       verified := true;
       engagement := {| likes := 234; shares := 89; replies := 45 |} |};
    {| id := tweet_id disasterId "2";
       user := "nyc_emergency";
       content := " EMERGENCY ALERT: Evacuation order issued for Lower East Side residents. Proceed to designated shelters immediately. Transportation available at community centers.";
       timestamp := minutes_ago w 25;
       priority := "urgent";
       location := "Lower East Side, NYC";
       keywords := ["evacuation"; "emergency"; "shelter"; "transportation"];
       platform := "Twitter";
       verified := true;
       engagement := {| likes := 567; shares := 234; replies := 78 |} |};
    {| id := tweet_id disasterId "3";
       user := "volunteer_helper";
       content := "Setting up emergency food distribution at Central Park. Hot meals and water available. Volunteers needed! #DisasterRelief #NYC";
       timestamp := minutes_ago w 45;
       priority := "medium";
       location := "Central Park, NYC";
       keywords := ["food"; "volunteers"; "relief"; "help"];
       platform := "Twitter";
       verified := false;
       engagement := {| likes := 123; shares := 67; replies := 23 |} |};
    {| id := tweet_id disasterId "4";
       user := "medical_team_nyc";
       content := "Mobile medical unit deployed to Brooklyn Bridge area. First aid and emergency medical care available. Follow safety protocols when approaching.";
       timestamp := minutes_ago w 35;
       priority := "high";
       location := "Brooklyn Bridge, NYC";
       keywords := ["medical"; "first aid"; "emergency"; "safety"];
       platform := "Twitter";
       verified := true;
       engagement := {| likes := 189; shares := 45; replies := 12 |} |};
    {| id := tweet_id disasterId "5";
       user := "local_resident";
       content := "Power outage affecting entire block on 8th Avenue. Traffic lights down. Please drive carefully and check on elderly neighbors.";
       timestamp := minutes_ago w 55;
       priority := "medium";
       location := "8th Avenue, NYC";
       keywords := ["power"; "outage"; "traffic"; "safety"];
       platform := "Twitter";
       verified := false;
       engagement := {| likes := 67; shares := 23; replies := 8 |} |};
    {| id := tweet_id disasterId "6";
       user := "fire_dept_nyc";
       content := " Structure fire contained at 123 Main St. Area secured. Residents from adjacent buildings evacuated as precaution. Air quality monitoring in progress.";
       timestamp := minutes_ago w 65;
       priority := "high";
       location := "Main Street, NYC";
       keywords := ["fire"; "evacuation"; "air quality"; "safety"];
       platform := "Twitter";
       verified := true;
       engagement := {| likes := 345; shares := 123; replies := 56 |} |};
    {| id := tweet_id disasterId "7";
       user := "community_leader";
       content := "Community center at 456 Oak St open as temporary shelter. Blankets, food, and phone charging stations available. Pet-friendly facility.";
       timestamp := minutes_ago w 75;
       priority := "medium";
       location := "Oak Street, NYC";
       keywords := ["shelter"; "community"; "pets"; "charging"];
       platform := "Twitter";
       verified := false;
       engagement := {| likes := 156; shares := 78; replies := 34 |} |};
    {| id := tweet_id disasterId "8";
       user := "transport_update";
       content := "Subway lines 4, 5, 6 suspended due to flooding. Bus service rerouted. Check MTA app for real-time updates. Free rides to evacuation centers.";
       timestamp := minutes_ago w 85;
       priority := "high";
       location := "NYC Transit System";
       keywords := ["subway"; "bus"; "transport"; "evacuation"];
       platform := "Twitter";
       verified := true;
       engagement := {| likes := 445; shares := 167; replies := 89 |} |} ].

Definition tag_matches (report : Report) (tag : string) : bool :=
  existsb (fun keyword => Js.includes (Js.toLowerCase keyword) (Js.toLowerCase tag))
          (keywords report)
  || Js.includes (Js.toLowerCase (content report)) (Js.toLowerCase tag).

Definition generateEnhancedMockReports (w : World) (tags : list string)
    (disasterId : string) : list Report :=
  if (0 <? List.length tags)%nat
  then filter (fun report => existsb (tag_matches report) tags)
              (baseReports w disasterId)
  else baseReports w disasterId.

Definition social_key (disasterId : string) (tags : list string) : string :=
  "social_media_" ++ disasterId ++ "_" ++ Js.join "_" tags.

Definition fetchSocialMediaReports (w : World) (disasterId : string)
    (tags : list string) : M (list Report) :=
  let cacheKey := social_key disasterId tags in
  try_catch
    (cached <- call (CacheGet cacheKey) (cache_get_reports w cacheKey) ;;
     match cached with
     | Some hit => logger "info" "Social media cache hit" ;;; ret hit
     | None =>
         let mockReports := generateEnhancedMockReports w tags disasterId in
         call (CacheSet cacheKey (CacheReports mockReports) (Some (5 # 10)%Q))
              (cache_set w cacheKey (CacheReports mockReports) (Some (5 # 10)%Q)) ;;;
         logger "info"
           ("Fetched " ++ Js.show_nat (List.length mockReports) ++
            " social media reports") ;;;
         ret mockReports
     end)
    (fun message =>
       logger "error" ("Social media fetch error: " ++ message) ;;;
       ret []).

Definition urgentKeywords : list string :=
  ["urgent"; "sos"; "emergency"; "help"; "trapped"; "critical"; "evacuation";
   "danger"].

Definition is_alert (report : Report) : bool :=
  let content := Js.toLowerCase (content report) in
  existsb (fun keyword => Js.includes content keyword) urgentKeywords
  || (priority report =? "urgent").

(** The own properties of the object literal
    [{ urgent: 3, high: 2, medium: 1, low: 0 }]. *)
Definition priorityOrder : list (string * Z) :=
  [("urgent", 3); ("high", 2); ("medium", 1); ("low", 0)]%Z.

Fixpoint property (o : list (string * Z)) (key : string) : option Z :=
  match o with
  | [] => None
  | (k, v) :: o' => if k =? key then Some v else property o' key
  end.

(** The names of the members that the literal inherits from
    [Object.prototype]. *)
Definition inheritedNames : list string :=
  ["constructor"; "__defineGetter__"; "__defineSetter__"; "hasOwnProperty";
   "__lookupGetter__"; "__lookupSetter__"; "isPrototypeOf";
   "propertyIsEnumerable"; "toString"; "valueOf"; "__proto__";
   "toLocaleString"].

(** What reading a property of the literal gives: a number, or the
    inherited member of that name (a function, or for [__proto__] the
    prototype object).  The members are twelve different objects; each is
    truthy, and as an operand of a subtraction it gives NaN. *)
Inductive value : Type :=
| Number (n : Z)
| Member (name : string).

(** [priorityOrder[key]], through the prototype chain; [None] is
    [undefined]. *)
Definition get (key : string) : option value :=
  match property priorityOrder key with
  | Some v => Some (Number v)
  | None =>
      if existsb (String.eqb key) inheritedNames then Some (Member key)
      else None
  end.

(** [priorityOrder[p] || 0] *)
Definition rank (p : string) : value :=
  match get p with
  | Some (Number v) => if (v =? 0)%Z then Number 0 else Number v
  | Some (Member name) => Member name
  | None => Number 0
  end.

(** [x === y] *)
Definition strict_equal (x y : value) : bool :=
  match x, y with
  | Number n, Number m => (n =? m)%Z
  | Member a, Member b => a =? b
  | _, _ => false
  end.

(** [x - y]; [None] is NaN. *)
Definition minus (x y : value) : option Z :=
  match x, y with
  | Number n, Number m => Some (n - m)%Z
  | _, _ => None
  end.

Definition compare (a b : Report) : option Z :=
  let aPriority := rank (priority a) in
  let bPriority := rank (priority b) in
  if negb (strict_equal aPriority bPriority)
  then minus bPriority aPriority
  else Some (timestamp b - timestamp a)%Z.

Definition detectPriorityAlerts (reports : list Report) : list Report :=
  let priorityAlerts := filter is_alert reports in
  JsArray.sort compare priorityAlerts.

(** Report objects live in a heap; [sentiment] and [sentiment_score] are
    the two properties that [analyzeSentiment] adds, absent ([None]) on a
    report that was never annotated.  An array of reports is a list of
    addresses. *)
Record JsReport : Type := {
  fields : Report;
  sentiment : option string;
  sentiment_score : option Z
}.

Definition heap : Type := list JsReport.

Definition positiveKeywords : list string :=
  ["help"; "safe"; "rescued"; "volunteer"; "support"; "relief"].
Definition negativeKeywords : list string :=
  ["trapped"; "danger"; "emergency"; "critical"; "urgent"; "flood"; "fire"].

Definition count_hits (vocabulary : list string) (content : string) : nat :=
  List.length (filter (fun keyword => Js.includes content keyword) vocabulary).

(** The object that the callback of [map] returns for [report]. *)
Definition annotate (report : JsReport) : JsReport :=
  let content := Js.toLowerCase (content (fields report)) in
  let positiveCount := count_hits positiveKeywords content in
  let negativeCount := count_hits negativeKeywords content in
  let label :=
    if (positiveCount <? negativeCount)%nat then "negative"
    else if (negativeCount <? positiveCount)%nat then "positive"
    else "neutral" in
  {| fields := fields report;
     sentiment := Some label;
     sentiment_score :=
       Some (Z.of_nat positiveCount - Z.of_nat negativeCount)%Z |}.

(** [reports.map(...)]: each returned object is allocated at the end of
    the heap; nothing is written to an existing address.  An entry that is
    not a report object makes the callback throw, which is [None]. *)
Fixpoint analyzeSentiment (h : heap) (reports : list nat)
  : option (heap * list nat) :=
  match reports with
  | [] => Some (h, [])
  | r :: rest =>
      match nth_error h r with
      | Some report =>
          match analyzeSentiment (h ++ [annotate report]) rest with
          | Some (h', out) => Some (h', List.length h :: out)
          | None => None
          end
      | None => None
      end
  end.

End SocialMediaService.

(* ================================================================= *)
(** ** The feed component

    The effect of [SocialMediaFeed] that computes the reports shown from
    the reports received and the two filters of the component. *)

Module SocialMediaFeed.

Definition keyword_matches (report : Report) (keywordFilter : string) : bool :=
  Js.includes (Js.toLowerCase (content report)) (Js.toLowerCase keywordFilter)
  || existsb (fun keyword =>
                Js.includes (Js.toLowerCase keyword)
                            (Js.toLowerCase keywordFilter))
             (keywords report).

Definition filteredReports (reports : list Report)
    (priorityFilter keywordFilter : string) : list Report :=
  let filtered := reports in
  let filtered :=
    if negb (priorityFilter =? "all")
    then filter (fun report => priority report =? priorityFilter) filtered
    else filtered in
  let filtered :=
    if Js.truthy keywordFilter
    then filter (fun report => keyword_matches report keywordFilter) filtered
    else filtered in
  filtered.

End SocialMediaFeed.

(* ================================================================= *)
(** ** The map component

    The encoding of the marker icons, and the two helpers of [MapView]
    that place the markers. *)

Module MapView.

(** The characters that [encodeURIComponent] leaves as they are. *)
Definition is_unreserved (c : ascii) : bool :=
  Js.is_upper c || Js.is_lower c || Js.is_digit c ||
  existsb (Ascii.eqb c) ["-"; "_"; "."; "!"; "~"; "*"; "'"; "("; ")"]%char.

Definition hex_digit (n : nat) : ascii :=
  nth n (list_ascii_of_string "0123456789ABCDEF") "0"%char.

(** [%XX] for one byte. *)
Definition percent (byte : nat) : list ascii :=
  ["%"%char; hex_digit (byte / 16); hex_digit (byte mod 16)].

(** [encodeURIComponent]: every character that is not left as it is
    becomes the bytes of its UTF-8 form, each written [%XX]. *)
Definition encodeURIComponent (s : string) : string :=
  string_of_list_ascii
    (flat_map (fun c => if is_unreserved c then [c]
                        else flat_map percent (Base64.utf8 c))
              (list_ascii_of_string s)).

(** [/%([0-9A-F]{2})/] *)
Definition escape : Regex.regex :=
  Regex.seqs [Regex.Chr "%"; Regex.Cls [(48, 57); (65, 70)];
              Regex.Cls [(48, 57); (65, 70)]]%nat.

(** [parseInt(p1, 16)] for hexadecimal digits in upper case. *)
Definition hex_value (c : ascii) : nat :=
  if Js.is_digit c then Js.code c - 48 else Js.code c - 55.

Fixpoint parseInt16 (digits : list ascii) (acc : nat) : nat :=
  match digits with
  | [] => acc
  | c :: rest => parseInt16 rest (16 * acc + hex_value c)
  end.

(** The replacer [(_, p1) => String.fromCharCode(parseInt(p1, 16))]: the
    group [p1] is the match without its percent sign. *)
Definition replacer (matched : list ascii) : string :=
  String (ascii_of_nat (parseInt16 (tl matched) 0)) "".

(** [String.prototype.replace] with the [g] flag and a replacer
    function. *)
Fixpoint replace_with_loop (fuel : nat) (r : Regex.regex)
    (by_ : list ascii -> string) (prev : option ascii) (s : list ascii)
  : string :=
  match fuel with
  | O => string_of_list_ascii s
  | S fuel' =>
      match Regex.search false r prev s with
      | None => string_of_list_ascii s
      | Some f =>
          string_of_list_ascii (Regex.skipped f) ++ by_ (Regex.matched f) ++
          match Regex.matched f, Regex.rest_after f with
          | [], [] => ""
          | [], c :: rest => String c (replace_with_loop fuel' r by_ (Some c) rest)
          | _ :: _, rest => replace_with_loop fuel' r by_ (Regex.prev_after f) rest
          end
      end
  end.

Definition replace_with (r : Regex.regex) (by_ : list ascii -> string)
    (s : string) : string :=
  let l := list_ascii_of_string s in
  replace_with_loop (S (List.length l)) r by_ None l.

(** [btoa]: the base64 text of the characters taken as bytes. *)
Definition btoa (binary : string) : string :=
  string_of_list_ascii
    (Base64.encode (map Js.code (list_ascii_of_string binary))).

Definition base64EncodeUnicode (str : string) : string :=
  btoa (replace_with escape replacer (encodeURIComponent str)).

Definition LatLngTuple : Type := (Q * Q)%type.

Definition defaultCenter : LatLngTuple := (407128 # 10000, -740060 # 10000)%Q.

(** [array[i]] for an integral [i]: [undefined] at a negative index.  The
    index that the helpers pass is the result of [%], the remainder of the
    truncated division. *)
Definition at_index {A : Type} (array : list A) (i : Z) : option A :=
  if (i <? 0)%Z then None else nth_error array (Z.to_nat i).

Definition disasterPositions : list LatLngTuple :=
  [ (407589 # 10000, -739851 # 10000); (406892 # 10000, -740445 # 10000);
    (407505 # 10000, -739934 # 10000); (407282 # 10000, -737949 # 10000) ]%Q.

Definition resourcePositions : list LatLngTuple :=
  [ (407614 # 10000, -739776 # 10000); (407061 # 10000, -740087 # 10000);
    (407831 # 10000, -739712 # 10000); (407282 # 10000, -737949 # 10000);
    (406782 # 10000, -739442 # 10000) ]%Q.

Definition getDisasterPosition (index : Z) : LatLngTuple :=
  let positions := disasterPositions in
  match at_index positions (Z.rem index (Z.of_nat (List.length positions))) with
  | Some position => position
  | None => defaultCenter
  end.

Definition getResourcePosition (index : Z) : LatLngTuple :=
  let positions := resourcePositions in
  match at_index positions (Z.rem index (Z.of_nat (List.length positions))) with
  | Some position => position
  | None => defaultCenter
  end.

End MapView.

(* ================================================================= *)
(** ** Vocabulary of the statements *)

(** The [method] enumeration of the data model, and how the labels that
    the code writes read in it.  The code has no label for a pattern-only
    success, and its label of the error path is a fourth text. *)
Inductive Method : Type :=
| NER_AND_PATTERNS
| PATTERNS_ONLY
| FAILED.

Definition method_of_label (label : string) : option Method :=
  if label =? "NER+Patterns" then Some NER_AND_PATTERNS
  else if label =? "Failed" then Some FAILED
  else None.

Definition is_http (e : event) : bool :=
  match e with
  | HttpPost _ | HttpGet _ | HttpHead _ => true
  | _ => false
  end.


(** Every cache write of the trace passes a time-to-live. *)
Definition ttl_always_explicit (t : trace) : Prop :=
  forall key value ttl, In (CacheSet key value ttl) t -> ttl <> None.

(** The cache answers a miss for [key] and accepts writes to it. *)
Definition location_cache_cold (w : World) (key : string) : Prop :=
  cache_get_location w key = Ok None /\
  forall value ttl, cache_set w key value ttl = Ok tt.

Definition image_cache_cold (w : World) (key : string) : Prop :=
  cache_get_image w key = Ok None /\
  forall value ttl, cache_set w key value ttl = Ok tt.


(** The classification service answers, with a body that is not an array
    or is the empty array. *)
Definition empty_classification (w : World) (url image : string) : Prop :=
  get_image w url = Ok image /\
  (post_classify w image = Ok ClassNotArray \/
   post_classify w image = Ok (ClassArray [])).



(** An internal error of [fetchSocialMediaReports]: the cache read fails,
    or it misses and the cache write fails. *)
Inductive fetch_error (w : World) (key : string) (fresh : list Report) : Prop :=
| read_failure (message : string) :
    cache_get_reports w key = Throw message -> fetch_error w key fresh
| write_failure (message : string) :
    cache_get_reports w key = Ok None ->
    cache_set w key (CacheReports fresh) (Some (5 # 10)%Q) = Throw message ->
    fetch_error w key fresh.

(** [kw] occurs in [s]: some part of [s] is [kw]. *)
Definition occurs_in (kw s : string) : Prop :=
  exists before after, s = (before ++ kw ++ after)%string.

(** [kw] occurs in [s] up to the case of letters. *)
Definition occurs_ignoring_case (kw s : string) : Prop :=
  exists before part after,
    s = (before ++ part ++ after)%string /\ Js.toLowerCase part = kw.

(** Number of positions of [s] at which [kw] starts. *)
Fixpoint occurrences (kw s : string) : nat :=
  (if String.prefix kw s then 1 else 0) +
  match s with
  | EmptyString => 0
  | String _ s' => occurrences kw s'
  end.

Definition total_occurrences (vocabulary : list string) (s : string) : nat :=
  list_sum (map (fun kw => occurrences kw s) vocabulary).

(** The score as the sentence of the specification words it: occurrences
    of positive words minus occurrences of negative words, letter case
    ignored. *)
Definition score_by_occurrences (content : string) : Z :=
  (Z.of_nat (total_occurrences SocialMediaService.positiveKeywords
               (Js.toLowerCase content)) -
   Z.of_nat (total_occurrences SocialMediaService.negativeKeywords
               (Js.toLowerCase content)))%Z.

(** [n] is the number of words of [vocabulary] that occur in [content],
    letter case ignored; a word counts once however often it occurs. *)
Definition word_hits (vocabulary : list string) (content : string) (n : nat)
  : Prop :=
  exists hit : string -> bool,
    (forall kw, hit kw = true <-> occurs_ignoring_case kw content) /\
    n = List.length (filter hit vocabulary).

Definition label_of_score (score : Z) : string :=
  if (0 <? score)%Z then "positive"
  else if (score <? 0)%Z then "negative"
  else "neutral".

(** [annotated] carries the fields of [original] and the two annotations
    computed from its content. *)
Definition annotation_of (original annotated : SocialMediaService.JsReport)
  : Prop :=
  SocialMediaService.fields annotated = SocialMediaService.fields original /\
  exists positive negative,
    word_hits SocialMediaService.positiveKeywords
      (content (SocialMediaService.fields original)) positive /\
    word_hits SocialMediaService.negativeKeywords
      (content (SocialMediaService.fields original)) negative /\
    SocialMediaService.sentiment_score annotated =
      Some (Z.of_nat positive - Z.of_nat negative)%Z /\
    SocialMediaService.sentiment annotated =
      Some (label_of_score (Z.of_nat positive - Z.of_nat negative)).





(** All matches of a pattern in a text, in the order they are found. *)
Definition matches_of (description : string) (p : GeminiService.pattern)
  : list string :=
  match Regex.match_global (GeminiService.ignoreCase p)
          (GeminiService.source p) description with
  | Some ms => ms
  | None => []
  end.

(** The candidates in discovery order: family by family in declaration
    order, and within a family left to right, each cleaned of its leading
    preposition. *)
Definition candidates (description : string) : list string :=
  flat_map (fun p => map GeminiService.clean (matches_of description p))
           GeminiService.locationPatterns.

(** [c] is the first element of [l] that [keep] accepts. *)
Definition first_survivor (keep : string -> bool) (l : list string)
    (c : string) : Prop :=
  exists earlier later,
    l = earlier ++ c :: later /\ keep c = true /\
    Forall (fun x => keep x = false) earlier.

(** The shape of a matcher: it starts at a position and is given the
    continuation of the match. *)
Definition matcher : Type :=
  option ascii -> list ascii -> Regex.continuation -> option (list ascii).

(** A matcher calls its continuation only at positions that are not
    further from the end of the text than where it started. *)
Definition calls_forward (step : matcher) : Prop :=
  forall prev s k e,
    step prev s k = Some e ->
    exists p s', (List.length s' <= List.length s)%nat /\ k p s' = Some e.

(** A matcher depends on its continuation only through those positions. *)
Definition local_step (step : matcher) : Prop :=
  forall prev s k1 k2,
    (forall p s', (List.length s' <= List.length s)%nat -> k1 p s' = k2 p s') ->
    step prev s k1 = step prev s k2.

(** [s] is the word [w] up to the case of letters. *)
Fixpoint same_word (w : string) (s : list ascii) : bool :=
  match w, s with
  | EmptyString, [] => true
  | String p w', c :: s' => Regex.char_matches true p c && same_word w' s'
  | _, _ => false
  end.

(** What is left to match after the alternatives of an anchored pattern:
    the end of the text. *)
Definition at_end : Regex.continuation := fun p s =>
  Regex.run true Regex.Eos p s (fun _ rest => Some rest).

Definition all_chars : list ascii := map ascii_of_nat (seq 0 256).

Definition lower_letters : list ascii := map ascii_of_nat (seq 97 26).

Definition lower_word (w : string) : bool :=
  forallb Js.is_lower (list_ascii_of_string w).

(** A candidate survives the filter: it is longer than two characters and
    is no stop-word, whatever the case of its letters. *)
Definition survives (c : string) : Prop :=
  (2 < String.length c)%nat /\
  ~ In (Js.toLowerCase c) GeminiService.stop_words.

(** The three shapes of a computed [ExtractionResult]. *)
Definition answer_result (l : string) : Extraction.t :=
  {| Extraction.location := l;
     Extraction.confidence := 8 # 10;
     Extraction.method := "NER+Patterns";
     Extraction.error := None |}.

Definition no_answer_result : Extraction.t :=
  {| Extraction.location := "Location extraction failed";
     Extraction.confidence := 1 # 10;
     Extraction.method := "Failed";
     Extraction.error := None |}.

(** The result computed for what was found: an answer, or none. *)
Definition result_for (answer : option string) : Extraction.t :=
  match answer with
  | Some l => answer_result l
  | None => no_answer_result
  end.

Definition error_result (message : string) : Extraction.t :=
  {| Extraction.location := "Location extraction failed";
     Extraction.confidence := 0;
     Extraction.method := "Error";
     Extraction.error := Some message |}.



(** The result of an analysis that found no label to report. *)
Definition analyzed_by_default (w : World) (raw : class_data) (image : string)
  : Verification.t :=
  {| Verification.status := "analyzed";
     Verification.analysis := "Image analyzed successfully";
     Verification.confidence := Some (7 # 10)%Q;
     Verification.details :=
       DetailsAnalysis raw (String.length image) (Date_toISOString w) |}.

(** [tag] occurs in [text], the case of letters ignored on both sides. *)
Definition mentions (tag text : string) : Prop :=
  occurs_ignoring_case (Js.toLowerCase tag) text.

(** The report carries the tag: in one of its keywords or in its content. *)
Definition carries_tag (r : Report) (tag : string) : Prop :=
  (exists keyword, In keyword (keywords r) /\ mentions tag keyword) \/
  mentions tag (content r).

(** What the two filters of the feed let through. *)
Definition shown (priorityFilter keywordFilter : string) (r : Report) : Prop :=
  (priorityFilter = "all" \/ priority r = priorityFilter) /\
  carries_tag r keywordFilter.

(** The two filters of the feed as one predicate. *)
Definition passes (p k : string) (r : Report) : bool :=
  ((p =? "all") || (priority r =? p)) &&
  (negb (Js.truthy k) || SocialMediaFeed.keyword_matches r k).

(** Number of bytes of the UTF-8 form of [s], the text that the cache
    keys encode. *)
Definition byte_length (s : string) : nat :=
  List.length (flat_map Base64.utf8 (list_ascii_of_string s)).

(** The label names a disaster: one of the six disaster words occurs in
    it, the case of letters ignored. *)
Definition disaster_label (label : string) : Prop :=
  exists kw, In kw GeminiService.disasterKeywords /\
             occurs_ignoring_case kw label.

(** The confidence of the result is the score of the top label that the
    classification service returned. *)
Definition reports_top_score (r : Verification.t) : Prop :=
  exists label rest size stamp,
    Verification.details r =
      DetailsAnalysis
        (ClassArray (Item label (Verification.confidence r) :: rest))
        size stamp.

(** What the confidence of a verification result can be, by status. *)
Definition status_confidence (r : Verification.t) : Prop :=
  (Verification.status r = "invalid" /\ Verification.confidence r = Some 0%Q) \/
  (Verification.status r = "error" /\ Verification.confidence r = Some 0%Q) \/
  (Verification.status r = "basic_check" /\
   Verification.confidence r = Some (5 # 10)%Q) \/
  (Verification.status r = "analyzed" /\
   (Verification.confidence r = Some (7 # 10)%Q \/ reports_top_score r)) \/
  (Verification.status r = "authentic" /\ reports_top_score r).

Definition basic_check_result (ct : string) (cl : option string)
  : Verification.t :=
  {| Verification.status := "basic_check";
     Verification.analysis :=
       "Image URL validated. Type: " ++ ct ++ ", Size: " ++
       GeminiService.show_optional cl ++ " bytes";
     Verification.confidence := Some (5 # 10)%Q;
     Verification.details := DetailsBasic ct cl "basic_validation" |}.

Definition not_an_image_result (ct : option string) : Verification.t :=
  {| Verification.status := "invalid";
     Verification.analysis := "URL does not point to a valid image";
     Verification.confidence := Some 0%Q;
     Verification.details := DetailsContentType ct |}.

Definition analysis_error_result (message : string) : Verification.t :=
  {| Verification.status := "error";
     Verification.analysis := "Image analysis failed: " ++ message;
     Verification.confidence := Some 0%Q;
     Verification.details := DetailsError message |}.

(** The content type names an image. *)
Definition image_type (ct : option string) : bool :=
  match ct with
  | Some t => Js.startsWith t "image/"
  | None => false
  end.

(** [s'] is what is left of [s] after some of its first characters. *)
Definition rest_of (s' s : list ascii) : Prop := exists pre, s = pre ++ s'.

(** [part] is a run of consecutive characters of [s]. *)
Definition part_of (part s : list ascii) : Prop :=
  exists before after, s = before ++ part ++ after.

(** A matcher hands to its continuation only what is left of its text. *)
Definition calls_on_rest (step : matcher) : Prop :=
  forall prev s k e,
    step prev s k = Some e ->
    exists p s', rest_of s' s /\ k p s' = Some e.

(** The entity service is asked and gives no usable answer: the request
    fails, the body is not an array, or the kept entities make the empty
    text or the text "Unknown". *)
Inductive ner_without_answer (w : World) (d : string) : Prop :=
| ner_request_fails (message : string) :
    post_ner w d = Throw message -> ner_without_answer w d
| ner_body_not_array :
    post_ner w d = Ok NerNotArray -> ner_without_answer w d
| ner_nothing_kept (ents : list Entity) :
    post_ner w d = Ok (NerEntities ents) ->
    GeminiService.ner_locations ents = "" \/
    GeminiService.ner_locations ents = "Unknown" ->
    ner_without_answer w d.

(** The two annotations of a report object, when it carries both. *)
Definition annotations (o : SocialMediaService.JsReport)
  : option (string * Z) :=
  match SocialMediaService.sentiment o, SocialMediaService.sentiment_score o with
  | Some label, Some score => Some (label, score)
  | _, _ => None
  end.

(** The tokenizer's mark of a word piece. *)
Definition is_hash (c : ascii) : bool := Ascii.eqb "#" c.

(** The text without its marks: each pair of hashes removed, left to
    right. *)
Fixpoint without_marks (l : list ascii) : list ascii :=
  match l with
  | [] => []
  | c :: t =>
      match t with
      | d :: t' =>
          if is_hash c && is_hash d then without_marks t'
          else c :: without_marks t
      | [] => [c]
      end
  end.

(** The text begins with [scheme], whatever the case of its letters. *)
Definition begins_with (scheme : string) (l : list ascii) : Prop :=
  exists head rest,
    l = head ++ rest /\
    map Js.lower_char head = list_ascii_of_string scheme.

(** What the scheme state does with a character whose lower-case form is
    a letter of "https" or the colon. *)
Definition scheme_step_ok (c : ascii) : bool :=
  (if existsb (Ascii.eqb (Js.lower_char c)) ["h"; "t"; "p"; "s"]%char
   then Url.is_alpha c && Url.is_scheme_char c && negb (Js.code c =? 58)%nat
   else true) &&
  (if Ascii.eqb (Js.lower_char c) ":" then (Js.code c =? 58)%nat else true).

(** The percent-encoded form of one character. *)
Definition encoded_char (c : ascii) : list ascii :=
  if MapView.is_unreserved c then [c]
  else flat_map MapView.percent (Base64.utf8 c).

(** What the encoding relies on, character by character: a character
    left as it is is a single byte and no percent sign, and every byte of
    a character is below 256. *)
Definition encoding_ok (c : ascii) : bool :=
  (if MapView.is_unreserved c
   then (Js.code c <? 128)%nat && negb (Ascii.eqb "%" c) else true) &&
  forallb (fun b => (b <? 256)%nat) (Base64.utf8 c).

(** What the pattern relies on: the two digits written for a byte are in
    the class of the pattern and read back as the byte. *)
Definition digits_ok (b : nat) : bool :=
  Regex.class_matches false [(48, 57); (65, 70)]%nat (MapView.hex_digit (b / 16))
  && Regex.class_matches false [(48, 57); (65, 70)]%nat
       (MapView.hex_digit (b mod 16))
  && (MapView.parseInt16
        [MapView.hex_digit (b / 16); MapView.hex_digit (b mod 16)] 0 =? b)%nat.

Definition is_cache_read (e : event) : bool :=
  match e with
  | CacheGet _ => true
  | _ => false
  end.

Definition is_cache_write (e : event) : bool :=
  match e with
  | CacheSet _ _ _ => true
  | _ => false
  end.

(** The run consults the cache first, under [key] and only once, and
    writes to it at most once. *)
Definition cache_protocol (key : string) (t : trace) : Prop :=
  exists rest,
    t = CacheGet key :: rest /\
    Forall (fun e => is_cache_read e = false) rest /\
    (List.length (filter is_cache_write rest) <= 1)%nat.

(** The result of the error path of [verifyImage]. *)
Definition technical_error_result (w : World) (message : string)
  : Verification.t :=
  {| Verification.status := "error";
     Verification.analysis :=
       "Image verification failed due to technical error";
     Verification.confidence := Some 0%Q;
     Verification.details := DetailsErrorAt message (Date_toISOString w) |}.

(** The cache fails the call with [message]: on the read, or after a miss
    on the write of the run. *)
Definition cache_fails (read : outcome bool) (w : World) (t : trace)
    (message : string) : Prop :=
  read = Throw message \/
  (read = Ok false /\
   exists key value ttl,
     In (CacheSet key value ttl) t /\
     cache_set w key value ttl = Throw message).

(** The answer of a cache read, without the value: failure, miss or hit. *)
Definition hit_of {A : Type} (read : outcome (option A)) : outcome bool :=
  match read with
  | Ok (Some _) => Ok true
  | Ok None => Ok false
  | Throw message => Throw message
  end.

(* ================================================================= *)
(** ** Example worlds *)

Definition show_confidence (q : Q) : string :=
  if Qeq_bool q (8 # 10) then "0.8"
  else if Qeq_bool q (1 # 10) then "0.1" else "0".

(** A world given by its credential, whether the cache works, and the
    answers of the image host and of the classifier; the cache is empty and
    the entity service is unreachable. *)
Definition world_of (token : option string) (cache_works : bool)
    (image : outcome string) (classes : outcome class_data) : World :=
  {| GEMINI_API_KEY := None;
     HUGGINGFACE_API_KEY := token;
     Date_now := 1750000000000;
     Date_toISOString := "2025-06-15T15:06:40.000Z";
     number_toString := show_confidence;
     percent_toFixed1 := fun _ => "0.0";
     url_rest_parses := fun _ => true;
     cache_get_reports :=
       fun _ => if cache_works then Ok None else Throw "cache unavailable";
     cache_get_location :=
       fun _ => if cache_works then Ok None else Throw "cache unavailable";
     cache_get_image :=
       fun _ => if cache_works then Ok None else Throw "cache unavailable";
     cache_set :=
       fun _ _ _ => if cache_works then Ok tt else Throw "cache unavailable";
     post_ner := fun _ => Throw "Network Error";
     get_image := fun _ => image;
     post_classify := fun _ => classes;
     head_image := fun _ => Throw "Network Error" |}.

Definition no_credential : World :=
  world_of None true (Throw "Network Error") (Throw "Network Error").

Definition broken_cache : World :=
  world_of None false (Throw "Network Error") (Throw "Network Error").

Definition image_host_down : World :=
  world_of (Some "hf_token") true (Throw "Network Error")
           (Throw "Network Error").

Definition classifier_answers_object : World :=
  world_of (Some "hf_token") true (Ok "image bytes") (Ok ClassNotArray).

(** The world [w] with an entity service that answers. *)
Definition with_ner (w : World) (answer : outcome ner_data) : World :=
  {| GEMINI_API_KEY := GEMINI_API_KEY w;
     HUGGINGFACE_API_KEY := HUGGINGFACE_API_KEY w;
     Date_now := Date_now w;
     Date_toISOString := Date_toISOString w;
     number_toString := number_toString w;
     percent_toFixed1 := percent_toFixed1 w;
     url_rest_parses := url_rest_parses w;
     cache_get_reports := cache_get_reports w;
     cache_get_location := cache_get_location w;
     cache_get_image := cache_get_image w;
     cache_set := cache_set w;
     post_ner := fun _ => answer;
     get_image := get_image w;
     post_classify := post_classify w;
     head_image := head_image w |}.

Definition bridge_entities : list Entity :=
  [ {| entity_group := "LOC"; word := "Brooklyn" |};
    {| entity_group := "PER"; word := "Bob" |};
    {| entity_group := "LOC"; word := "Bridge" |};
    {| entity_group := "MISC"; word := "##side park" |};
    {| entity_group := "MISC"; word := "sparkle" |} ].

Definition central_park : string := "Flood near Central Park emergency shelter".

Definition sample_report (text prio : string) (time : Z) : Report :=
  {| id := "r"; user := "u"; content := text; timestamp := time;
     priority := prio; location := ""; keywords := []; platform := "Twitter";
     verified := false;
     engagement := {| likes := 0; shares := 0; replies := 0 |} |}.

Definition plain (r : Report) : SocialMediaService.JsReport :=
  {| SocialMediaService.fields := r;
     SocialMediaService.sentiment := None;
     SocialMediaService.sentiment_score := None |}.

(** The world [w] with an image host that answers a HEAD request. *)
Definition with_head (w : World) (answer : outcome Headers) : World :=
  {| GEMINI_API_KEY := GEMINI_API_KEY w;
     HUGGINGFACE_API_KEY := HUGGINGFACE_API_KEY w;
     Date_now := Date_now w;
     Date_toISOString := Date_toISOString w;
     number_toString := number_toString w;
     percent_toFixed1 := percent_toFixed1 w;
     url_rest_parses := url_rest_parses w;
     cache_get_reports := cache_get_reports w;
     cache_get_location := cache_get_location w;
     cache_get_image := cache_get_image w;
     cache_set := cache_set w;
     post_ner := post_ner w;
     get_image := get_image w;
     post_classify := post_classify w;
     head_image := fun _ => answer |}.

Definition png_headers : Headers :=
  {| content_type := Some "image/png"; content_length := Some "2048" |}.

Definition classifier_sees_flood : World :=
  world_of (Some "hf_token") true (Ok "image bytes")
           (Ok (ClassArray [Item "Flood water" (Some (9 # 10)%Q);
                            Item "lakeside" (Some (1 # 10)%Q)])).

Definition flood_picture : string := "https://example.org/flood.png".


Definition long_report : string :=
  "Severe flooding reported along the river bank, ".

(* ================================================================= *)
(** ** Running the services *)

(** Unfolds the services and the monad down to the answers of the world. *)
Ltac run_services :=
  cbv [result_of events_of
       GeminiService.extractLocation GeminiService.extractLocationWithNER
       GeminiService.verifyImage GeminiService.performImageVerification
       GeminiService.analyzeImageWithHuggingFace
       GeminiService.analyzeImageBasic
       SocialMediaService.fetchSocialMediaReports
       try_catch bind call logger ret throw fst snd negb];
  cbn [app].

(** Case analysis on an answer of the world, then the next step. *)
Ltac answer_of x := destruct x; cbv beta iota; cbn [app].

(** Case analysis on every answer that the goal still inspects. *)
Ltac split_answers :=
  repeat match goal with
         | |- context [match ?x with _ => _ end] =>
             lazymatch type of x with
             | prod _ _ => fail
             | _ => answer_of x
             end
         end.

(** Membership in an explicit list of events. *)
Ltac in_events H :=
  repeat (destruct H as [H|H]; [try discriminate H; try (injection H as ? ? ?)|]);
  try contradiction.

(** Case analysis on every answer that the goal still inspects, each
    answer remembered as an equation. *)
Ltac split_answers_eq :=
  repeat match goal with
         | |- context [match ?x with _ => _ end] =>
             lazymatch type of x with
             | prod _ _ => fail
             | _ => destruct x eqn:?; cbv beta iota; cbn [app]
             end
         end.
(** Two different answers to one call of the world. *)
Ltac clash :=
  match goal with
  | H1 : _ = Ok _, H2 : _ = Throw _ |- _ =>
      let E := fresh in
      pose proof (eq_trans (eq_sym H1) H2) as E; discriminate E
  end.

(** One call of the world that failed has one message. *)
Ltac same_failure :=
  match goal with
  | H1 : _ = Throw ?m1, H2 : _ = Throw ?m2 |- _ =>
      tryif constr_eq m1 m2 then fail
      else (let E := fresh in
            pose proof (eq_trans (eq_sym H1) H2) as E; injection E as <-)
  end.

(** One step of the scheme state on a letter of the scheme, [letter]
    being the fact about such letters. *)
Ltac scheme_letter_step letter H :=
  let Ha := fresh in let Hs := fresh in let Hc := fresh in
  destruct (letter _ _ H ltac:(cbn [In]; tauto)) as (Ha & Hs & Hc);
  cbn [Url.scheme_state]; rewrite ?Ha, ?Hs, ?Hc, ?H.

(* ================================================================= *)
(** ** Facts about strings *)

Module JsFacts.

Lemma prefix_app (p s : string) :
  String.prefix p s = true <-> exists rest, s = (p ++ rest)%string.
Proof.
  revert s; induction p as [|c p IH]; intros s.
  - split; [intros _; now exists s | intros _; now destruct s].
  - destruct s as [|d s]; simpl.
    + split; [discriminate | intros [rest H]; discriminate].
    + destruct (ascii_dec c d) as [->|Hcd].
      * rewrite IH. split; intros [rest H]; exists rest; congruence.
      * split; [discriminate | intros [rest H]; congruence].
Qed.

Lemma includes_unfold (s kw : string) :
  Js.includes s kw =
  String.prefix kw s ||
  match s with
  | EmptyString => false
  | String _ s' => Js.includes s' kw
  end.
Proof. destruct s; reflexivity. Qed.

Lemma includes_occurs (s kw : string) :
  Js.includes s kw = true <-> occurs_in kw s.
Proof.
  split.
  - induction s as [|c s IH]; rewrite includes_unfold, orb_true_iff.
    + intros [H|H]; [|discriminate].
      apply prefix_app in H as [rest ->]. now exists ""%string, rest.
    + intros [H|H].
      * apply prefix_app in H as [rest H]. exists ""%string, rest. exact H.
      * destruct (IH H) as (before & after & ->).
        now exists (String c before), after.
  - intros (before & after & ->).
    induction before as [|c before IH].
    + rewrite includes_unfold. apply orb_true_iff. left.
      apply prefix_app. now exists after.
    + change (String c before ++ kw ++ after)%string
        with (String c (before ++ kw ++ after)).
      rewrite includes_unfold. cbv beta iota.
      rewrite IH. apply orb_true_r.
Qed.

Lemma map_string_app (f : ascii -> ascii) (a b : string) :
  Js.map_string f (a ++ b) = (Js.map_string f a ++ Js.map_string f b)%string.
Proof. induction a as [|c a IH]; simpl; [reflexivity | now rewrite IH]. Qed.

Lemma map_string_split (f : ascii -> ascii) (a b s : string) :
  Js.map_string f s = (a ++ b)%string ->
  exists s1 s2, s = (s1 ++ s2)%string /\
                Js.map_string f s1 = a /\ Js.map_string f s2 = b.
Proof.
  revert s; induction a as [|c a IH]; intros s H; simpl in H.
  - now exists ""%string, s.
  - destruct s as [|d s]; simpl in H; [discriminate|].
    injection H as Hc Hs.
    destruct (IH s Hs) as (s1 & s2 & -> & H1 & H2).
    exists (String d s1), s2. simpl. now rewrite Hc, H1.
Qed.

(** Looking for a lower-case word in the lower-cased text is looking for
    the word in the text with the case of letters ignored. *)
Lemma includes_ignoring_case (s kw : string) :
  Js.includes (Js.toLowerCase s) kw = true <-> occurs_ignoring_case kw s.
Proof.
  rewrite includes_occurs. unfold occurs_in, occurs_ignoring_case, Js.toLowerCase.
  split.
  - intros (before & after & H).
    apply map_string_split in H as (s1 & s23 & -> & _ & H).
    apply map_string_split in H as (s2 & s3 & -> & H2 & _).
    now exists s1, s2, s3.
  - intros (before & part & after & -> & <-).
    exists (Js.map_string Js.lower_char before),
           (Js.map_string Js.lower_char after).
    now rewrite !map_string_app.
Qed.

Lemma truthy_length (s : string) :
  (0 < String.length s)%nat -> Js.truthy s = true.
Proof. destruct s; simpl; [lia | reflexivity]. Qed.

End JsFacts.

(* ================================================================= *)
(** ** Facts about [Array.prototype.sort] *)

Module SortFacts.

Section Insertion.
Variable A : Type.
Variable compareFn : A -> A -> option Z.
Variable domain : A -> Prop.

(** The comparator is a consistent ordering of the elements of [domain]. *)
Hypothesis compare_flip :
  forall x y, domain x -> domain y -> (0 < JsArray.SortCompare compareFn x y)%Z ->
    (JsArray.SortCompare compareFn y x <= 0)%Z.
Hypothesis compare_trans :
  forall x y z,
    domain x -> domain y -> domain z ->
    (JsArray.SortCompare compareFn x y <= 0)%Z ->
    (JsArray.SortCompare compareFn y z <= 0)%Z ->
    (JsArray.SortCompare compareFn x z <= 0)%Z.





End Insertion.

End SortFacts.

(* ================================================================= *)
(** ** Facts about the feed triage *)

Unset Implicit Arguments.

Module TriageFacts.

Import SocialMediaService.







End TriageFacts.

(* ================================================================= *)
(** ** Feed triage: the claims *)

Module Triage.

Import SocialMediaService.







(** The scenario of the specification: A is medium and mentions an
    evacuation, B is low with no urgent word, C is urgent. *)
Example alerts_scenario :
  let A := sample_report "Evacuation of the east bank" "medium" 30 in
  let B := sample_report "Road reopened this morning" "low" 20 in
  let C := sample_report "Bridge closed" "urgent" 10 in
  detectPriorityAlerts [A; B; C] = [C; A].
Proof. reflexivity. Qed.

End Triage.

Module Sentiment.

Import SocialMediaService.

Lemma count_hits_words (vocabulary : list string) (text : string) :
  word_hits vocabulary text (count_hits vocabulary (Js.toLowerCase text)).
Proof.
  exists (fun kw => Js.includes (Js.toLowerCase text) kw). split.
  - intros kw. apply JsFacts.includes_ignoring_case.
  - reflexivity.
Qed.

Lemma annotate_annotation (o : JsReport) : annotation_of o (annotate o).
Proof.
  split; [reflexivity|].
  exists (count_hits positiveKeywords (Js.toLowerCase (content (fields o)))),
         (count_hits negativeKeywords (Js.toLowerCase (content (fields o)))).
  split; [apply count_hits_words|].
  split; [apply count_hits_words|].
  split; [reflexivity|].
  unfold annotate, label_of_score; cbn [sentiment].
  set (p := count_hits positiveKeywords _).
  set (n := count_hits negativeKeywords _).
  destruct (p <? n)%nat eqn:E1.
  - apply Nat.ltb_lt in E1.
    destruct (0 <? Z.of_nat p - Z.of_nat n)%Z eqn:E2;
      [apply Z.ltb_lt in E2; lia|].
    destruct (Z.of_nat p - Z.of_nat n <? 0)%Z eqn:E3;
      [reflexivity | apply Z.ltb_ge in E3; lia].
  - apply Nat.ltb_ge in E1.
    destruct (n <? p)%nat eqn:E4.
    + apply Nat.ltb_lt in E4.
      destruct (0 <? Z.of_nat p - Z.of_nat n)%Z eqn:E2;
        [reflexivity | apply Z.ltb_ge in E2; lia].
    + apply Nat.ltb_ge in E4.
      destruct (0 <? Z.of_nat p - Z.of_nat n)%Z eqn:E2;
        [apply Z.ltb_lt in E2; lia|].
      destruct (Z.of_nat p - Z.of_nat n <? 0)%Z eqn:E3;
        [apply Z.ltb_lt in E3; lia | reflexivity].
Qed.

(** C3, as the code has it.  For a batch of report objects,
    [analyzeSentiment] returns as many new objects, in the same order.  No
    object of the input heap is changed; each result is a fresh address
    that holds the fields of its report, a [sentiment_score] equal to the
    number of positive words that occur in the content minus the number
    of negative words that occur in it (letter case ignored, each word
    counted once), and the [sentiment] "positive", "negative" or "neutral"
    according to the sign of that score. *)
Theorem analyzeSentiment_annotates (h : heap) (reports : list nat) :
  Forall (fun r => r < List.length h)%nat reports ->
  exists h' out,
    analyzeSentiment h reports = Some (h', out) /\
    List.length out = List.length reports /\
    (forall a o, nth_error h a = Some o -> nth_error h' a = Some o) /\
    (forall i r o,
        nth_error reports i = Some r -> nth_error h r = Some o ->
        exists r' o',
          nth_error out i = Some r' /\ (List.length h <= r')%nat /\
          nth_error h' r' = Some o' /\ annotation_of o o').
Proof.
  revert h. induction reports as [|r rest IH]; intros h Hvalid.
  - exists h, []. repeat split; auto.
    intros [|i] r o H; discriminate.
  - inversion Hvalid as [|? ? Hr Hrest]; subst.
    destruct (nth_error h r) as [o|] eqn:Ho;
      [|apply nth_error_None in Ho; lia].
    destruct (IH (h ++ [annotate o])) as (h' & out & Hrun & Hlen & Hkeep & Hnew).
    { eapply Forall_impl; [|exact Hrest].
      intros a Ha; cbv beta in *. rewrite length_app. lia. }
    exists h', (List.length h :: out).
    assert (Hold : forall a x, nth_error h a = Some x -> nth_error h' a = Some x).
    { intros a x Ha. apply Hkeep. rewrite nth_error_app1; [exact Ha|].
      apply nth_error_Some. congruence. }
    split; [|split; [|split]].
    + simpl. rewrite Ho, Hrun. reflexivity.
    + simpl. now rewrite Hlen.
    + exact Hold.
    + intros [|i] r0 o0 Hi Hr0; simpl in Hi.
      * injection Hi as <-. rewrite Ho in Hr0. injection Hr0 as <-.
        exists (List.length h), (annotate o).
        split; [reflexivity|]. split; [lia|]. split.
        -- apply Hkeep. rewrite nth_error_app2 by lia.
           now rewrite Nat.sub_diag.
        -- apply annotate_annotation.
      * destruct (Hnew i r0 o0 Hi) as (r' & o' & Hout & Hfresh & Hget & Hann).
        { rewrite nth_error_app1; [exact Hr0|].
          apply nth_error_Some. congruence. }
        exists r', o'.
        split; [exact Hout|]. split; [|split; [exact Hget | exact Hann]].
        rewrite length_app in Hfresh. simpl in Hfresh. lia.
Qed.

Lemma analyzeSentiment_annotates_witness :
  Forall (fun r => r < 1)%nat [0%nat] /\
  exists h' out,
    analyzeSentiment
      [plain (sample_report "volunteer support and relief, no danger" "low" 0)]
      [0%nat] = Some (h', out) /\
    List.length out = 1%nat /\
    (forall a o,
        nth_error
          [plain (sample_report "volunteer support and relief, no danger"
                    "low" 0)] a = Some o ->
        nth_error h' a = Some o) /\
    (forall i r o,
        nth_error [0%nat] i = Some r ->
        nth_error
          [plain (sample_report "volunteer support and relief, no danger"
                    "low" 0)] r = Some o ->
        exists r' o',
          nth_error out i = Some r' /\ (1 <= r')%nat /\
          nth_error h' r' = Some o' /\ annotation_of o o').
Proof.
  split.
  - repeat constructor.
  - apply (analyzeSentiment_annotates
             [plain (sample_report "volunteer support and relief, no danger"
                       "low" 0)] [0%nat]).
    repeat constructor.
Defined.

(** The scenario of the specification: three positive words and one
    negative word give the score 2 and the label "positive". *)
Example sentiment_scenario :
  annotate (plain (sample_report "volunteer support and relief, no danger"
                     "low" 0)) =
  {| fields := sample_report "volunteer support and relief, no danger" "low" 0;
     sentiment := Some "positive";
     sentiment_score := Some 2%Z |}.
Proof. reflexivity. Qed.

(** No vocabulary word in the content: the label is "neutral" and the
    score 0. *)
Example no_hit_scenario :
  annotate (plain (sample_report "Road reopened this morning" "low" 0)) =
  {| fields := sample_report "Road reopened this morning" "low" 0;
     sentiment := Some "neutral";
     sentiment_score := Some 0%Z |}.
Proof. reflexivity. Qed.

(** C3 as stated fails: a word that occurs twice is counted once.  For the
    content "help help" the code gives the score 1, the count of
    occurrences gives 2. *)
Lemma repeated_word_counts_once :
  analyzeSentiment [plain (sample_report "help help" "low" 0)] [0%nat] =
    Some ([plain (sample_report "help help" "low" 0);
           {| fields := sample_report "help help" "low" 0;
              sentiment := Some "positive";
              sentiment_score := Some 1%Z |}], [1%nat]) /\
  score_by_occurrences "help help" = 2%Z.
Proof. split; reflexivity. Qed.

End Sentiment.

(* ================================================================= *)
(** ** Facts about the matcher: the loops never run out of fuel *)

Module EngineFacts.

Import Regex.

Lemma star_loop_calls step fuel prev s k e :
  calls_forward step ->
  star_loop step k fuel prev s = Some e ->
  exists p s', (List.length s' <= List.length s)%nat /\ k p s' = Some e.
Proof.
  intros Hstep. revert prev s.
  induction fuel as [|fuel IH]; intros prev s H; cbn [star_loop] in H.
  - now exists prev, s.
  - destruct (step prev s _) as [e'|] eqn:E.
    + injection H as ->. apply Hstep in E as (p & s' & Hlen & E).
      destruct (List.length s' <? List.length s)%nat; [|discriminate].
      apply IH in E as (p' & s'' & Hlen' & E).
      exists p', s''. split; [lia | exact E].
    + now exists prev, s.
Qed.

Lemma run_calls ci r : calls_forward (run ci r).
Proof.
  induction r as [|c|ranges|r1 IH1 r2 IH2|r1 IH1 r2 IH2|r1 IH1| | |];
    intros prev s k e H; cbn [run] in H.
  - now exists prev, s.
  - destruct s as [|d s]; [discriminate|].
    destruct (char_matches ci c d); [|discriminate].
    exists (Some d), s. split; [cbn; lia | exact H].
  - destruct s as [|d s]; [discriminate|].
    destruct (class_matches ci ranges d); [|discriminate].
    exists (Some d), s. split; [cbn; lia | exact H].
  - apply IH1 in H as (p & s' & Hlen & H).
    apply IH2 in H as (p' & s'' & Hlen' & H).
    exists p', s''. split; [lia | exact H].
  - destruct (run ci r1 prev s k) as [e'|] eqn:E.
    + injection H as ->. now apply IH1 in E.
    + now apply IH2 in H.
  - now apply star_loop_calls in H.
  - destruct (xorb _ _); [|discriminate]. now exists prev, s.
  - destruct prev; [discriminate|]. now exists None, s.
  - destruct s; [|discriminate]. now exists prev, [].
Qed.

Lemma star_loop_local step fuel prev s k1 k2 :
  local_step step ->
  (forall p s', (List.length s' <= List.length s)%nat -> k1 p s' = k2 p s') ->
  star_loop step k1 fuel prev s = star_loop step k2 fuel prev s.
Proof.
  intros Hstep. revert prev s.
  induction fuel as [|fuel IH]; intros prev s Hk; cbn [star_loop].
  - apply Hk. lia.
  - rewrite (Hstep prev s _
               (fun p s' =>
                  if (List.length s' <? List.length s)%nat
                  then star_loop step k2 fuel p s' else None)).
    + rewrite (Hk prev s) by lia. reflexivity.
    + intros p s' Hlen.
      destruct (List.length s' <? List.length s)%nat eqn:E; [|reflexivity].
      apply IH. intros p' s'' Hlen'. apply Hk. lia.
Qed.

Lemma run_local ci r : local_step (run ci r).
Proof.
  induction r as [|c|ranges|r1 IH1 r2 IH2|r1 IH1 r2 IH2|r1 IH1| | |];
    intros prev s k1 k2 Hk; cbn [run].
  - apply Hk. lia.
  - destruct s as [|d s]; [reflexivity|].
    destruct (char_matches ci c d); [|reflexivity]. apply Hk. cbn. lia.
  - destruct s as [|d s]; [reflexivity|].
    destruct (class_matches ci ranges d); [|reflexivity]. apply Hk. cbn. lia.
  - apply IH1. intros p s' Hlen. apply IH2.
    intros p' s'' Hlen'. apply Hk. lia.
  - rewrite (IH1 prev s k1 k2 Hk), (IH2 prev s k1 k2 Hk). reflexivity.
  - now apply star_loop_local.
  - destruct (xorb _ _); [|reflexivity]. apply Hk. lia.
  - destruct prev; [reflexivity|]. apply Hk. lia.
  - destruct s; [|reflexivity]. apply Hk. cbn. lia.
Qed.

(** More fuel than the length of the text changes nothing in a
    repetition. *)
Lemma star_loop_fuel step k :
  calls_forward step -> local_step step ->
  forall fuel1 fuel2 prev s,
    (List.length s <= fuel1)%nat -> (List.length s <= fuel2)%nat ->
    star_loop step k fuel1 prev s = star_loop step k fuel2 prev s.
Proof.
  intros Hcalls Hlocal.
  assert (Hstuck : forall prev s k',
             (forall p s', k' p s' = None) -> step prev s k' = None).
  { intros prev s k' Hk'. destruct (step prev s k') as [e|] eqn:E; [|reflexivity].
    apply Hcalls in E as (p & s' & _ & E). now rewrite Hk' in E. }
  assert (Hempty : forall fuel prev, star_loop step k fuel prev [] = k prev []).
  { intros [|fuel] prev; cbn [star_loop]; [reflexivity|].
    now rewrite Hstuck. }
  induction fuel1 as [|fuel1 IH]; intros fuel2 prev s H1 H2.
  - destruct s; [|cbn in H1; lia]. now rewrite !Hempty.
  - destruct fuel2 as [|fuel2].
    + destruct s; [|cbn in H2; lia]. now rewrite !Hempty.
    + cbn [star_loop]. rewrite (Hlocal prev s _
                      (fun p s' =>
                         if (List.length s' <? List.length s)%nat
                         then star_loop step k fuel2 p s' else None)).
      * reflexivity.
      * intros p s' _.
        destruct (List.length s' <? List.length s)%nat eqn:E; [|reflexivity].
        apply Nat.ltb_lt in E. apply IH; lia.
Qed.

Lemma match_here_length ci r prev s rest :
  match_here ci r prev s = Some rest ->
  (List.length rest <= List.length s)%nat.
Proof.
  intros H. apply run_calls in H as (p & s' & Hlen & [= <-]). exact Hlen.
Qed.

Lemma firstn_nonempty (n : nat) (l : list ascii) : firstn n l <> [] -> n <> 0%nat.
Proof. intros H ->. now apply H. Qed.

(** A search leaves a text that is no longer than the one searched, and
    shorter when the match is not empty. *)
Lemma search_length ci r prev s f :
  search ci r prev s = Some f ->
  (List.length (rest_after f) <= List.length s)%nat /\
  (matched f <> [] -> List.length (rest_after f) < List.length s)%nat.
Proof.
  revert prev f. induction s as [|c s IH]; intros prev f H; cbn [search] in H.
  - destruct (match_here ci r prev []) as [rest|] eqn:E; [|discriminate].
    injection H as <-. apply match_here_length in E. unfold rest_after, matched.
    split; [exact E|]. intros Hne. now elim Hne.
  - destruct (match_here ci r prev (c :: s)) as [rest|] eqn:E.
    + injection H as <-. apply match_here_length in E.
      unfold rest_after, matched.
      split; [exact E|]. intros Hne. apply firstn_nonempty in Hne.
      cbn [List.length] in *. destruct (List.length rest); lia.
    + destruct (search ci r (Some c) s) as [f'|] eqn:E'; [|discriminate].
      injection H as <-.
      destruct (IH _ _ E') as [Hle Hlt].
      destruct f' as [sk m pa ra]. cbn in Hle, Hlt |- *.
      split; [lia|]. intros Hne. specialize (Hlt Hne). lia.
Qed.

(** More fuel than the length of the text plus one changes nothing in the
    loop of a global match. *)
Lemma match_loop_fuel ci r :
  forall fuel1 fuel2 prev s,
    (List.length s < fuel1)%nat -> (List.length s < fuel2)%nat ->
    match_loop fuel1 ci r prev s = match_loop fuel2 ci r prev s.
Proof.
  induction fuel1 as [|fuel1 IH]; intros fuel2 prev s H1 H2; [lia|].
  destruct fuel2 as [|fuel2]; [lia|]. cbn [match_loop].
  destruct (search ci r prev s) as [f|] eqn:E; [|reflexivity].
  apply search_length in E as [Hle Hlt]. f_equal.
  destruct (matched f) as [|m ms] eqn:Em.
  - destruct (rest_after f) as [|c rest]; [reflexivity|].
    cbn [List.length] in Hle. apply IH; lia.
  - assert (Hlt' : (List.length (rest_after f) < List.length s)%nat)
      by (apply Hlt; discriminate).
    apply IH; lia.
Qed.

(** The same for the loop of a global replacement. *)
Lemma replace_loop_fuel ci r by_ :
  forall fuel1 fuel2 prev s,
    (List.length s < fuel1)%nat -> (List.length s < fuel2)%nat ->
    replace_loop fuel1 ci r by_ prev s = replace_loop fuel2 ci r by_ prev s.
Proof.
  induction fuel1 as [|fuel1 IH]; intros fuel2 prev s H1 H2; [lia|].
  destruct fuel2 as [|fuel2]; [lia|]. cbn [replace_loop].
  destruct (search ci r prev s) as [f|] eqn:E; [|reflexivity].
  apply search_length in E as [Hle Hlt]. do 2 f_equal.
  destruct (matched f) as [|m ms] eqn:Em.
  - destruct (rest_after f) as [|c rest]; [reflexivity|].
    cbn [List.length] in Hle. f_equal. apply IH; lia.
  - assert (Hlt' : (List.length (rest_after f) < List.length s)%nat)
      by (apply Hlt; discriminate).
    apply IH; lia.
Qed.

(** The fuel that the matcher gives to a repetition and the fuel that
    [match] and [replace] give to their loops are enough: any larger
    amount yields the same result. *)
Lemma star_fuel_enough ci r k fuel prev s :
  (List.length s <= fuel)%nat ->
  star_loop (run ci r) k fuel prev s = run ci (Star r) prev s k.
Proof.
  intros H. cbn [run].
  apply star_loop_fuel; [apply run_calls | apply run_local | exact H | lia].
Qed.

Lemma match_global_fuel_enough ci r s fuel :
  (String.length s < fuel)%nat ->
  match_global ci r s =
  match match_loop fuel ci r None (list_ascii_of_string s) with
  | [] => None
  | ms => Some ms
  end.
Proof.
  intros H. unfold match_global.
  assert (Hlen : List.length (list_ascii_of_string s) = String.length s).
  { clear H. induction s as [|c s IH]; cbn; [reflexivity | now rewrite IH]. }
  rewrite (match_loop_fuel ci r (S (List.length (list_ascii_of_string s))) fuel);
    [reflexivity | lia | lia].
Qed.

End EngineFacts.

(* ================================================================= *)
(** ** Facts about the stop-word test *)

Module RegexFacts.

Import Regex GeminiService.

Lemma run_lit_end (w : string) (prev : option ascii) (s : list ascii) :
  w <> ""%string ->
  run true (lit w) prev s at_end = if same_word w s then Some [] else None.
Proof.
  revert prev s. induction w as [|p w IH]; intros prev s Hw; [congruence|].
  destruct w as [|q w].
  - cbn [lit run same_word]. destruct s as [|c s]; [reflexivity|].
    destruct (char_matches true p c); cbn [andb]; [|reflexivity].
    now destruct s.
  - change (lit (String p (String q w)))
      with (Seq (Chr p) (lit (String q w))).
    destruct s as [|c s]; [reflexivity|].
    cbn [run same_word].
    destruct (char_matches true p c); cbn [andb]; [|reflexivity].
    now apply IH.
Qed.

Lemma run_alts_end (ws : list string) (prev : option ascii) (s : list ascii) :
  ws <> [] -> Forall (fun w => w <> ""%string) ws ->
  run true (alts ws) prev s at_end =
  if existsb (fun w => same_word w s) ws then Some [] else None.
Proof.
  induction ws as [|w ws IH]; intros Hne Hall; [congruence|].
  inversion Hall as [|? ? Hw Hws]; subst.
  destruct ws as [|w' ws].
  - cbn [alts existsb]. rewrite run_lit_end by exact Hw.
    now rewrite orb_false_r.
  - change (alts (w :: w' :: ws)) with (Alt (lit w) (alts (w' :: ws))).
    cbn [run]. rewrite run_lit_end by exact Hw.
    cbn [existsb]. destruct (same_word w s); [reflexivity|].
    apply IH; [discriminate | exact Hws].
Qed.

Lemma search_anchored_later (r : regex) (c : ascii) (s : list ascii) :
  search true (Seq Bos r) (Some c) s = None.
Proof.
  revert c. induction s as [|d s IH]; intros c; cbn.
  - reflexivity.
  - now rewrite IH.
Qed.

Lemma stop_word_test_same (c : string) :
  test true stop_word c =
  existsb (fun w => same_word w (list_ascii_of_string c)) stop_words.
Proof.
  unfold test.
  set (s := list_ascii_of_string c).
  assert (Hhere : match_here true stop_word None s =
                  if existsb (fun w => same_word w s) stop_words
                  then Some [] else None).
  { change (match_here true stop_word None s)
      with (run true (alts stop_words) None s at_end).
    apply run_alts_end; [discriminate|].
    repeat constructor; discriminate. }
  destruct s as [|d s']; cbn [search]; rewrite Hhere;
    destruct (existsb _ stop_words); try reflexivity.
  now rewrite (search_anchored_later (Seq (alts stop_words) Eos)).
Qed.

Lemma all_chars_complete (c : ascii) : In c all_chars.
Proof.
  unfold all_chars. rewrite <- (ascii_nat_embedding c).
  apply in_map, in_seq. pose proof (nat_ascii_bounded c). lia.
Qed.

Lemma lower_letters_complete (p : ascii) :
  Js.is_lower p = true -> In p lower_letters.
Proof.
  unfold Js.is_lower, Js.in_range, Js.code, lower_letters. intros H.
  apply andb_true_iff in H as [Hlo Hhi].
  apply Nat.leb_le in Hlo, Hhi.
  rewrite <- (ascii_nat_embedding p). apply in_map, in_seq. lia.
Qed.

Lemma char_matches_lower_table :
  forallb (fun p =>
    forallb (fun c =>
      Bool.eqb (char_matches true p c) (Ascii.eqb (Js.lower_char c) p))
      all_chars) lower_letters = true.
Proof. vm_compute. reflexivity. Qed.

(** Under the [i] flag a lower-case letter of a pattern matches the
    characters whose lower-case form it is. *)
Lemma char_matches_lower (p c : ascii) :
  Js.is_lower p = true ->
  char_matches true p c = Ascii.eqb (Js.lower_char c) p.
Proof.
  intros Hp.
  pose proof char_matches_lower_table as H.
  rewrite forallb_forall in H. specialize (H p (lower_letters_complete p Hp)).
  rewrite forallb_forall in H. specialize (H c (all_chars_complete c)).
  now apply eqb_prop in H.
Qed.

Lemma same_word_lower (w : string) (s : string) :
  lower_word w = true ->
  same_word w (list_ascii_of_string s) = true <-> Js.toLowerCase s = w.
Proof.
  unfold lower_word, Js.toLowerCase.
  revert s. induction w as [|p w IH]; intros s Hw.
  - destruct s; cbn; split; congruence.
  - cbn in Hw. apply andb_true_iff in Hw as [Hp Hw].
    destruct s as [|c s]; cbn [list_ascii_of_string same_word Js.map_string].
    + split; discriminate.
    + rewrite andb_true_iff, (char_matches_lower p c Hp), Ascii.eqb_eq, (IH s Hw).
      split; [intros [-> ->]; reflexivity | intros [= -> ->]; now split].
Qed.

Lemma stop_word_test (c : string) :
  test true stop_word c = true <-> In (Js.toLowerCase c) stop_words.
Proof.
  rewrite stop_word_test_same, existsb_exists. split.
  - intros (w & Hin & Hsame).
    apply same_word_lower in Hsame; [now subst w|].
    assert (Hall : forallb lower_word stop_words = true) by reflexivity.
    rewrite forallb_forall in Hall. now apply Hall.
  - intros Hin. exists (Js.toLowerCase c). split; [exact Hin|].
    apply same_word_lower; [|reflexivity].
    assert (Hall : forallb lower_word stop_words = true) by reflexivity.
    rewrite forallb_forall in Hall. now apply Hall.
Qed.

(** The filter of the fallback keeps the candidates that survive. *)
Lemma keep_location_survives (c : string) :
  keep_location c = true <-> survives c.
Proof.
  unfold keep_location, survives.
  rewrite andb_true_iff, Nat.ltb_lt, negb_true_iff, <- stop_word_test.
  now rewrite not_true_iff_false.
Qed.

End RegexFacts.

(* ================================================================= *)
(** ** Facts about the pattern fallback *)

Module PatternFacts.

Import GeminiService.

Section FirstSurvivor.
Variable keep : string -> bool.

Lemma head_filter_none (l : list string) :
  hd_error (filter keep l) = None <-> Forall (fun x => keep x = false) l.
Proof.
  induction l as [|x l IH]; simpl.
  - split; [constructor | reflexivity].
  - destruct (keep x) eqn:E; simpl.
    + split; [discriminate|]. intros H. inversion H; congruence.
    + rewrite IH. split; [now constructor | now inversion 1].
Qed.

Lemma head_filter_some (l : list string) (c : string) :
  hd_error (filter keep l) = Some c <-> first_survivor keep l c.
Proof.
  unfold first_survivor. induction l as [|x l IH]; simpl.
  - split; [discriminate|].
    intros (earlier & later & H & _). now destruct earlier.
  - destruct (keep x) eqn:E; simpl.
    + split.
      * intros [= <-]. exists [], l. repeat split; [exact E | constructor].
      * intros ([|y earlier] & later & H & Hc & Hall).
        -- simpl in H. congruence.
        -- simpl in H. injection H as <- _. inversion Hall; congruence.
    + rewrite IH. split.
      * intros (earlier & later & -> & Hc & Hall).
        exists (x :: earlier), later. repeat split; [exact Hc | now constructor].
      * intros ([|y earlier] & later & H & Hc & Hall).
        -- simpl in H. injection H as <- _. congruence.
        -- simpl in H. injection H as <- ->.
           exists earlier, later. repeat split; [exact Hc | now inversion Hall].
Qed.

(** Removing later duplicates does not change the first survivor. *)
Lemma head_filter_fold_set (l seen : list string) :
  hd_error (filter keep (fold_left set_add l seen)) =
  match hd_error (filter keep seen) with
  | Some y => Some y
  | None => hd_error (filter keep l)
  end.
Proof.
  revert seen. induction l as [|x l IH]; intros seen; simpl.
  - now destruct (hd_error (filter keep seen)).
  - rewrite IH. unfold set_add.
    destruct (existsb (String.eqb x) seen) eqn:Hseen.
    + destruct (hd_error (filter keep seen)) eqn:Hhead; [reflexivity|].
      apply existsb_exists in Hseen as (y & Hy & Hxy).
      apply String.eqb_eq in Hxy. subst y.
      apply head_filter_none in Hhead.
      rewrite Forall_forall in Hhead. now rewrite (Hhead x Hy).
    + rewrite filter_app. simpl.
      destruct (filter keep seen) as [|y rest]; simpl.
      * now destruct (keep x).
      * reflexivity.
Qed.

Lemma head_filter_set (l : list string) :
  hd_error (filter keep (set_of l)) = hd_error (filter keep l).
Proof. unfold set_of. now rewrite head_filter_fold_set. Qed.

End FirstSurvivor.

Lemma push_matches_app (d : string) (acc : list string) (p : pattern) :
  push_matches d acc p = acc ++ map clean (matches_of d p).
Proof.
  unfold push_matches, matches_of.
  destruct (Regex.match_global (ignoreCase p) (source p) d).
  - reflexivity.
  - simpl. now rewrite app_nil_r.
Qed.

Lemma fold_push_matches (d : string) (ps : list pattern) (acc : list string) :
  fold_left (push_matches d) ps acc =
  acc ++ flat_map (fun p => map clean (matches_of d p)) ps.
Proof.
  revert acc. induction ps as [|p ps IH]; intros acc; simpl.
  - now rewrite app_nil_r.
  - now rewrite IH, push_matches_app, app_assoc.
Qed.

(** The function is the head of the filtered candidates. *)
Lemma extractLocationWithPatterns_head (d : string) :
  extractLocationWithPatterns d = hd_error (filter keep_location (candidates d)).
Proof.
  unfold extractLocationWithPatterns, candidates.
  rewrite fold_push_matches. simpl app.
  rewrite <- (head_filter_set keep_location).
  now destruct (filter keep_location _).
Qed.

Lemma pattern_answer_truthy (d l : string) :
  extractLocationWithPatterns d = Some l -> Js.truthy l = true.
Proof.
  rewrite extractLocationWithPatterns_head, head_filter_some.
  intros (_ & _ & _ & Hkeep & _).
  unfold keep_location in Hkeep. apply andb_true_iff in Hkeep as [Hlen _].
  apply Nat.ltb_lt in Hlen. apply JsFacts.truthy_length. lia.
Qed.

End PatternFacts.

(* ================================================================= *)
(** ** Location resolver: the claims *)

Module Location.

Import GeminiService.

Lemma result_data_some (l : string) :
  Js.truthy l = true -> result_data (Some l) = answer_result l.
Proof. intros H. unfold result_data, answered. now rewrite H. Qed.

Lemma result_data_patterns (d : string) :
  result_data (extractLocationWithPatterns d) =
  match extractLocationWithPatterns d with
  | Some l => answer_result l
  | None => no_answer_result
  end.
Proof.
  destruct (extractLocationWithPatterns d) as [l|] eqn:E.
  - apply result_data_some. now apply PatternFacts.pattern_answer_truthy with d.
  - reflexivity.
Qed.

Lemma result_data_shape (extracted : option string) :
  (exists l, Js.truthy l = true /\ result_data extracted = answer_result l) \/
  result_data extracted = no_answer_result.
Proof.
  destruct extracted as [l|]; [|now right].
  destruct (Js.truthy l) eqn:E.
  - left. exists l. split; [exact E | now apply result_data_some].
  - right. unfold result_data, answered. now rewrite E.
Qed.

(** The primary step never throws, and what it returns and records does
    not depend on the events before it. *)
Lemma ner_run (w : World) (d : string) (t : trace) :
  exists ner,
    result_of (extractLocationWithNER w d) = Ok ner /\
    extractLocationWithNER w d t =
      (Ok ner, t ++ events_of (extractLocationWithNER w d)).
Proof.
  run_services. answer_of (has_token w).
  - answer_of (post_ner w d); [answer_of a|]; eexists; split;
      try reflexivity; now rewrite <- ?app_assoc.
  - eexists; split; reflexivity.
Qed.

(** With a cold cache the result is built from the answer of the primary
    step, or from the pattern fallback when that step yields nothing. *)
Lemma extractLocation_cold (w : World) (d : string) (ner : option string) :
  location_cache_cold w (location_key d) ->
  result_of (extractLocationWithNER w d) = Ok ner ->
  result_of (extractLocation w d) =
    Ok (result_data (if ner_failed ner
                     then extractLocationWithPatterns d else ner)).
Proof.
  intros [Hget Hset] Hner.
  destruct (ner_run w d [CacheGet (location_key d)]) as (ner' & Hner' & Hrun).
  rewrite Hner in Hner'. injection Hner' as <-.
  cbv [result_of extractLocation try_catch bind call logger ret fst].
  rewrite Hget. cbv beta iota. cbn [app]. rewrite Hrun.
  cbv beta iota. now rewrite Hset.
Qed.

(** After a cache miss the result depends on the write: accepted, the
    result built from what was found; failed, the error result with the
    message of the failure. *)
Lemma extractLocation_miss (w : World) (d : string) (ner : option string) :
  cache_get_location w (location_key d) = Ok None ->
  result_of (extractLocationWithNER w d) = Ok ner ->
  result_of (extractLocation w d) =
    match cache_set w (location_key d)
            (CacheLocation
               (result_data (if ner_failed ner
                             then extractLocationWithPatterns d else ner)))
            None with
    | Ok _ =>
        Ok (result_data (if ner_failed ner
                         then extractLocationWithPatterns d else ner))
    | Throw message => Ok (error_result message)
    end.
Proof.
  intros Hget Hner.
  destruct (ner_run w d [CacheGet (location_key d)]) as (ner' & Hner' & Hrun).
  rewrite Hner in Hner'. injection Hner' as <-.
  cbv [result_of extractLocation try_catch bind call logger ret fst].
  rewrite Hget. cbv beta iota. cbn [app]. rewrite Hrun.
  cbv beta iota.
  now destruct (cache_set w (location_key d) _ None).
Qed.

(** The primary step failed: it gave nothing, the empty text or the text
    "Unknown". *)
Lemma ner_failed_cases (ner : option string) :
  ner_failed ner = true <->
  ner = None \/ ner = Some "" \/ ner = Some "Unknown".
Proof.
  destruct ner as [l|]; cbn [ner_failed].
  - rewrite orb_true_iff, negb_true_iff, String.eqb_eq.
    unfold Js.truthy. rewrite negb_false_iff, String.eqb_eq.
    split.
    + intros [->| ->]; auto.
    + intros [H|[[= ->]|[= ->]]]; [discriminate H | now left | now right].
  - split; [now left | reflexivity].
Qed.

(** What is found is never the empty text. *)
Lemma result_data_found (ner : option string) (d : string) :
  result_data (if ner_failed ner then extractLocationWithPatterns d else ner)
  = result_for (if ner_failed ner then extractLocationWithPatterns d else ner)
  /\
  forall l,
    (if ner_failed ner then extractLocationWithPatterns d else ner) = Some l ->
    l <> "".
Proof.
  assert (Ht : forall l, Js.truthy l = true -> l <> "").
  { intros l H ->. discriminate H. }
  destruct (ner_failed ner) eqn:E.
  - split.
    + rewrite result_data_patterns. reflexivity.
    + intros l Hl. apply Ht. now apply PatternFacts.pattern_answer_truthy with d.
  - destruct ner as [l|]; [|discriminate E]. cbn [ner_failed] in E.
    apply orb_false_iff in E as [E _]. apply negb_false_iff in E.
    split.
    + now apply result_data_some.
    + intros l' [= <-]. now apply Ht.
Qed.

(** C1, as the code has it.  With no credential configured,
    [extractLocation] sends no request at all, so the NER step is never
    attempted.  The method field does not tell which step answered: after
    a cache miss, when the cache accepts the write, a non-empty answer of
    the pattern fallback is returned with confidence 0.8 and the method
    "NER+Patterns", and no answer gives confidence 0.1 and the method
    "Failed"; when the write fails, the result is the error result with
    the message of the failure. *)
Theorem no_credential_skips_ner (w : World) (d : string) :
  has_token w = false ->
  Forall (fun e => is_http e = false) (events_of (extractLocation w d)) /\
  (cache_get_location w (location_key d) = Ok None ->
   (cache_set w (location_key d)
      (CacheLocation (result_for (extractLocationWithPatterns d))) None
      = Ok tt ->
    result_of (extractLocation w d) =
      Ok (result_for (extractLocationWithPatterns d))) /\
   (forall message,
       cache_set w (location_key d)
         (CacheLocation (result_for (extractLocationWithPatterns d))) None
         = Throw message ->
       result_of (extractLocation w d) = Ok (error_result message))).
Proof.
  intros Htoken. split.
  - run_services. rewrite Htoken. cbv beta iota.
    answer_of (cache_get_location w (location_key d)).
    + answer_of a; [repeat constructor|].
      answer_of (cache_set w (location_key d)
                   (CacheLocation
                      (result_data
                         (if ner_failed None
                          then extractLocationWithPatterns d else None)))
                   None);
        repeat constructor.
    + repeat constructor.
  - intros Hmiss.
    assert (Hner : result_of (extractLocationWithNER w d) = Ok None)
      by (run_services; now rewrite Htoken).
    rewrite (extractLocation_miss w d None Hmiss Hner).
    cbn [ner_failed]. rewrite result_data_patterns.
    fold (result_for (extractLocationWithPatterns d)).
    split.
    + intros Hset. now rewrite Hset.
    + intros message Hset. now rewrite Hset.
Qed.

Lemma no_credential_skips_ner_witness :
  has_token no_credential = false /\
  cache_get_location no_credential (location_key central_park) = Ok None /\
  Forall (fun e => is_http e = false)
         (events_of (extractLocation no_credential central_park)) /\
  result_of (extractLocation no_credential central_park) =
    Ok (answer_result "Central Park").
Proof.
  split; [reflexivity|]. split; [reflexivity|]. split.
  - exact (proj1 (no_credential_skips_ner no_credential central_park eq_refl)).
  - exact (proj1 (proj2 (no_credential_skips_ner no_credential central_park
                           eq_refl) eq_refl) eq_refl).
Defined.

(** C1 as stated fails.  With no credential and the text of the scenario,
    the answer "Central Park" comes from the pattern fallback alone, yet
    its method is the label of NER_AND_PATTERNS. *)
Lemma pattern_answer_labelled_ner :
  has_token no_credential = false /\
  result_of (extractLocation no_credential central_park) =
    Ok {| Extraction.location := "Central Park";
          Extraction.confidence := 8 # 10;
          Extraction.method := "NER+Patterns";
          Extraction.error := None |} /\
  method_of_label "NER+Patterns" = Some NER_AND_PATTERNS.
Proof. repeat split; vm_compute; reflexivity. Qed.

(** C4, as the code has it.  [extractLocation] always returns a result,
    and which one is decided as follows.  On a cache hit it is the cached
    one.  After a miss, what was found is the answer of the primary step
    unless that step failed (it gave nothing, the empty text or the text
    "Unknown"), and else the answer of the pattern fallback; it is never
    the empty text.  When the cache accepts the write, an
    answer found is returned with confidence 0.8 and the method
    "NER+Patterns", and when none was found the text "Location extraction
    failed" with confidence 0.1 and the method "Failed".  When the cache
    read fails, or the write after a miss fails, the result has that
    text, confidence 0, the method "Error" and the message of the
    failure. *)
Theorem extractLocation_confidence_policy (w : World) (d : string) :
  exists ner found,
    result_of (extractLocationWithNER w d) = Ok ner /\
    (ner_failed ner = true <->
     ner = None \/ ner = Some "" \/ ner = Some "Unknown") /\
    found = (if ner_failed ner then extractLocationWithPatterns d else ner) /\
    (forall l, found = Some l -> l <> "") /\
    (forall hit,
        cache_get_location w (location_key d) = Ok (Some hit) ->
        result_of (extractLocation w d) = Ok hit) /\
    (forall message,
        cache_get_location w (location_key d) = Throw message ->
        result_of (extractLocation w d) = Ok (error_result message)) /\
    (cache_get_location w (location_key d) = Ok None ->
     cache_set w (location_key d) (CacheLocation (result_for found)) None
       = Ok tt ->
     result_of (extractLocation w d) = Ok (result_for found)) /\
    (forall message,
        cache_get_location w (location_key d) = Ok None ->
        cache_set w (location_key d) (CacheLocation (result_for found)) None
          = Throw message ->
        result_of (extractLocation w d) = Ok (error_result message)).
Proof.
  destruct (ner_run w d []) as (ner & Hner & _).
  exists ner, (if ner_failed ner then extractLocationWithPatterns d else ner).
  destruct (result_data_found ner d) as [Hdata Hfound].
  split; [exact Hner|]. split; [apply ner_failed_cases|].
  split; [reflexivity|]. split; [exact Hfound|].
  split; [|split; [|split]].
  - intros hit Hhit. run_services. now rewrite Hhit.
  - intros message Hread. run_services. now rewrite Hread.
  - intros Hmiss Hset.
    rewrite (extractLocation_miss w d ner Hmiss Hner), Hdata. now rewrite Hset.
  - intros message Hmiss Hset.
    rewrite (extractLocation_miss w d ner Hmiss Hner), Hdata. now rewrite Hset.
Qed.

(** C4 as stated fails.  When the cache cannot be read, the result has
    confidence 0 and the method "Error", which is none of the three values
    of the enumeration. *)
Lemma error_method_outside_enumeration :
  result_of (extractLocation broken_cache central_park) =
    Ok {| Extraction.location := "Location extraction failed";
          Extraction.confidence := 0;
          Extraction.method := "Error";
          Extraction.error := Some "cache unavailable" |} /\
  method_of_label "Error" = None.
Proof. split; vm_compute; reflexivity. Qed.



(** With a credential, the kept entities are joined and the marks of the
    tokenizer removed; the pattern fallback is not consulted. *)
Example ner_scenario :
  result_of (extractLocation
               (with_ner image_host_down (Ok (NerEntities bridge_entities)))
               "Bob saw the water rise") =
    Ok (answer_result "Brooklyn Bridge side park") /\
  extractLocationWithPatterns "Bob saw the water rise" = None.
Proof. split; reflexivity. Qed.

(** Discovery order is family first, position second: the "City, State"
    match is found before the park that stands earlier in the text. *)
Example discovery_order_scenario :
  candidates "Shelter near Oak Park in Springfield, IL" =
    ["Springfield, IL"; "Oak Park"; "Oak Park"; "Springfield"] /\
  extractLocationWithPatterns "Shelter near Oak Park in Springfield, IL" =
    Some "Springfield, IL".
Proof. split; reflexivity. Qed.

(** A stop-word and a candidate of two letters do not survive. *)
Example filtered_candidates_scenario :
  candidates "help in The end" = ["The"] /\
  extractLocationWithPatterns "help in The end" = None /\
  candidates "we are in Al" = ["Al"] /\
  extractLocationWithPatterns "we are in Al" = None.
Proof. repeat split; reflexivity. Qed.

End Location.

(* ================================================================= *)
(** ** Image authenticator: the claims *)

Module Image.

Import GeminiService.








(** C10.  In the credentialed path, when the classification service
    answers with a body that is not an array, or with the empty array, the
    result has status "analyzed", the fixed confidence 0.7 and the text
    "Image analyzed successfully"; it is what [verifyImage] returns on a
    cold cache. *)
Theorem empty_classification_is_analyzed (w : World) (url image : string) :
  has_token w = true ->
  isValidImageUrl w url = true ->
  empty_classification w url image ->
  exists raw,
    (raw = ClassNotArray \/ raw = ClassArray []) /\
    result_of (analyzeImageWithHuggingFace w url) =
      Ok (analyzed_by_default w raw image) /\
    result_of (performImageVerification w url) =
      Ok (analyzed_by_default w raw image) /\
    (image_cache_cold w (image_key url) ->
     result_of (verifyImage w url) = Ok (analyzed_by_default w raw image)).
Proof.
  intros Htoken Hurl [Hget [Hpost|Hpost]];
    [exists ClassNotArray | exists (ClassArray [])].
  all: split; [auto|]; split; [|split].
  all: try (intros [Hmiss Hset]); run_services;
    rewrite ?Hurl, ?Htoken, ?Hmiss; cbv beta iota;
    rewrite Hget; cbv beta iota; cbn [app]; rewrite Hpost; cbv beta iota;
    rewrite ?Hset; reflexivity.
Qed.

Lemma empty_classification_is_analyzed_witness :
  has_token classifier_answers_object = true /\
  isValidImageUrl classifier_answers_object "https://example.org/photo.png"
    = true /\
  empty_classification classifier_answers_object
    "https://example.org/photo.png" "image bytes" /\
  exists raw,
    (raw = ClassNotArray \/ raw = ClassArray []) /\
    result_of (analyzeImageWithHuggingFace classifier_answers_object
                 "https://example.org/photo.png") =
      Ok (analyzed_by_default classifier_answers_object raw "image bytes") /\
    result_of (performImageVerification classifier_answers_object
                 "https://example.org/photo.png") =
      Ok (analyzed_by_default classifier_answers_object raw "image bytes") /\
    (image_cache_cold classifier_answers_object
       (image_key "https://example.org/photo.png") ->
     result_of (verifyImage classifier_answers_object
                  "https://example.org/photo.png") =
       Ok (analyzed_by_default classifier_answers_object raw "image bytes")).
Proof.
  assert (Hempty : empty_classification classifier_answers_object
                     "https://example.org/photo.png" "image bytes")
    by (split; [reflexivity | left; reflexivity]).
  split; [reflexivity|]. split; [reflexivity|]. split; [exact Hempty|].
  exact (empty_classification_is_analyzed classifier_answers_object
           "https://example.org/photo.png" "image bytes"
           eq_refl eq_refl Hempty).
Defined.

(** The scenario of the specification, in a world with no credential and
    an empty cache. *)
Example not_a_url_scenario :
  result_of (verifyImage no_credential "not a url") = Ok invalid_url_result /\
  events_of (verifyImage no_credential "not a url") =
    [CacheGet (image_key "not a url");
     CacheSet (image_key "not a url") (CacheImage invalid_url_result) None;
     Log "info" "Image verification completed: invalid"].
Proof. split; reflexivity. Qed.

End Image.

(* ================================================================= *)
(** ** Cache use of the public operations: the claims *)

Module Caching.

Import GeminiService SocialMediaService.

(** C8, as the code has it.  Only the write of a social-media batch
    passes a time-to-live, half an hour; the writes of location and image
    results pass none and leave the duration to the store.  Each
    operation performs its write whenever its cache lookup misses. *)
Theorem cache_write_ttls (w : World) :
  (forall id tags key value ttl,
      In (CacheSet key value ttl) (events_of (fetchSocialMediaReports w id tags)) ->
      ttl = Some (5 # 10)%Q) /\
  (forall d key value ttl,
      In (CacheSet key value ttl) (events_of (extractLocation w d)) ->
      ttl = None) /\
  (forall url key value ttl,
      In (CacheSet key value ttl) (events_of (verifyImage w url)) ->
      ttl = None) /\
  (forall id tags,
      cache_get_reports w (social_key id tags) = Ok None ->
      exists value,
        In (CacheSet (social_key id tags) value (Some (5 # 10)%Q))
           (events_of (fetchSocialMediaReports w id tags))) /\
  (forall d,
      cache_get_location w (location_key d) = Ok None ->
      exists value,
        In (CacheSet (location_key d) value None)
           (events_of (extractLocation w d))) /\
  (forall url,
      cache_get_image w (image_key url) = Ok None ->
      exists value,
        In (CacheSet (image_key url) value None) (events_of (verifyImage w url))).
Proof.
  repeat apply conj.
  - intros id tags key value ttl. run_services. split_answers.
    all: intros H; in_events H; congruence.
  - intros d key value ttl. run_services. split_answers.
    all: intros H; in_events H; congruence.
  - intros url key value ttl. run_services. split_answers.
    all: intros H; in_events H; congruence.
  - intros id tags Hmiss. run_services. rewrite Hmiss. cbv beta iota.
    split_answers; eexists; cbn [In]; eauto 6.
  - intros d Hmiss. run_services. rewrite Hmiss. cbv beta iota.
    split_answers; eexists; cbn [In]; eauto 8.
  - intros url Hmiss. run_services. rewrite Hmiss. cbv beta iota.
    split_answers; eexists; cbn [In]; eauto 8.
Qed.

Lemma cache_write_ttls_witness :
  cache_get_location no_credential (location_key central_park) = Ok None /\
  exists value,
    In (CacheSet (location_key central_park) value None)
       (events_of (extractLocation no_credential central_park)).
Proof.
  split; [reflexivity|].
  exact (proj1 (proj2 (proj2 (proj2 (proj2 (cache_write_ttls no_credential)))))
           central_park eq_refl).
Defined.

(** C8 as stated fails: the write of a location result names no
    time-to-live. *)
Lemma location_write_has_no_ttl :
  ~ ttl_always_explicit (events_of (extractLocation no_credential central_park)).
Proof.
  intros H.
  apply (H (location_key central_park)
           (CacheLocation (answer_result "Central Park")) None).
  - vm_compute. right. right. left. reflexivity.
  - reflexivity.
Qed.

(** C9.  [fetchSocialMediaReports] always returns a list of reports and
    never raises; when the cache read fails, or the read misses and the
    cache write fails, the list is empty. *)
Theorem fetch_never_raises (w : World) (id : string) (tags : list string) :
  exists reports,
    result_of (fetchSocialMediaReports w id tags) = Ok reports /\
    (fetch_error w (social_key id tags)
                 (generateEnhancedMockReports w tags id) ->
     reports = []).
Proof.
  run_services.
  destruct (cache_get_reports w (social_key id tags)) as [[hit|]|m] eqn:Hget;
    cbv beta iota; cbn [app].
  - eexists. split; [reflexivity|].
    intros [m H | m H _]; congruence.
  - destruct (cache_set w (social_key id tags)
                (CacheReports (generateEnhancedMockReports w tags id))
                (Some (5 # 10)%Q)) as [u|m] eqn:Hset;
      cbv beta iota; cbn [app].
    + eexists. split; [reflexivity|].
      intros [m H | m _ H]; congruence.
    + eexists. split; reflexivity.
  - eexists. split; reflexivity.
Qed.

Lemma fetch_never_raises_witness :
  fetch_error broken_cache (social_key "d42" ["flood"])
    (generateEnhancedMockReports broken_cache ["flood"] "d42") /\
  exists reports,
    result_of (fetchSocialMediaReports broken_cache "d42" ["flood"]) =
      Ok reports /\
    (fetch_error broken_cache (social_key "d42" ["flood"])
                 (generateEnhancedMockReports broken_cache ["flood"] "d42") ->
     reports = []).
Proof.
  split.
  - apply read_failure with "cache unavailable". reflexivity.
  - exact (fetch_never_raises broken_cache "d42" ["flood"]).
Defined.

End Caching.

(* ================================================================= *)
(** ** Tag filter of the fixture feed *)

Module TagFilter.
Import SocialMediaService.

Lemma tag_matches_carries (r : Report) (tag : string) :
  tag_matches r tag = true <-> carries_tag r tag.
Proof.
  unfold tag_matches, carries_tag, mentions.
  rewrite orb_true_iff, existsb_exists.
  rewrite JsFacts.includes_ignoring_case.
  split; (intros [(kw & Hin & H)|H]; [left; exists kw; split; [exact Hin|] | now right]);
    now apply JsFacts.includes_ignoring_case.
Qed.

Lemma includes_empty (s : string) : Js.includes s "" = true.
Proof. rewrite JsFacts.includes_unfold. now destruct s. Qed.

Lemma toLowerCase_empty_matches (r : Report) : tag_matches r "" = true.
Proof.
  unfold tag_matches. change (Js.toLowerCase "") with "".
  rewrite includes_empty. apply orb_true_r.
Qed.

Lemma tag_filter_monotone (w : World) (id : string)
    (tags tags' : list string) (r : Report) :
  tags <> [] -> incl tags tags' ->
  In r (generateEnhancedMockReports w tags id) ->
  In r (generateEnhancedMockReports w tags' id).
Proof.
  intros Hne Hincl. unfold generateEnhancedMockReports.
  destruct tags as [|t tags]; [congruence|].
  destruct tags' as [|t' tags']; [now elim (Hincl t (or_introl eq_refl))|].
  cbn [List.length Nat.ltb Nat.leb]. rewrite !filter_In, !existsb_exists.
  intros [Hin (tag & Htag & H)]. split; [exact Hin|].
  exists tag. split; [now apply Hincl | exact H].
Qed.

(** X1.  [generateEnhancedMockReports] returns the fixture reports that
    carry one of the tags, in the order of the fixture: a report carries a
    tag when the tag occurs, the case of letters ignored, in one of its
    keywords or in its content.  With no tag it returns them all. *)
Theorem tag_filter_keeps_tagged_reports (w : World) (tags : list string)
    (id : string) :
  exists keep : Report -> bool,
    (forall r, keep r = true <->
               tags = [] \/ exists tag, In tag tags /\ carries_tag r tag) /\
    generateEnhancedMockReports w tags id = filter keep (baseReports w id).
Proof.
  unfold generateEnhancedMockReports.
  destruct tags as [|t tags].
  - exists (fun _ => true). split.
    + intros r. split; [now left | reflexivity].
    + cbn [List.length Nat.ltb Nat.leb].
      induction (baseReports w id) as [|x l IH]; cbn; [reflexivity | now rewrite <- IH].
  - exists (fun r => existsb (tag_matches r) (t :: tags)). split.
    + intros r. rewrite existsb_exists. split.
      * intros (tag & Hin & H). right. exists tag. split; [exact Hin|].
        now apply tag_matches_carries.
      * intros [H|(tag & Hin & H)]; [discriminate|].
        exists tag. split; [exact Hin|]. now apply tag_matches_carries.
    + reflexivity.
Qed.

(** X2.  Edges of the tag filter.  No tag selects all eight fixture
    reports, and so does every list that holds the empty tag, which occurs
    in every content.  Adding tags to a non-empty list removes no report. *)
Theorem tag_filter_edges (w : World) (id : string) :
  generateEnhancedMockReports w [] id = baseReports w id /\
  List.length (baseReports w id) = 8%nat /\
  (forall tags, In "" tags ->
     generateEnhancedMockReports w tags id = baseReports w id) /\
  (forall tags tags' r,
     tags <> [] -> incl tags tags' ->
     In r (generateEnhancedMockReports w tags id) ->
     In r (generateEnhancedMockReports w tags' id)).
Proof.
  split; [reflexivity|]. split; [reflexivity|]. split.
  - intros tags Hin. unfold generateEnhancedMockReports.
    destruct tags as [|t tags]; [reflexivity|].
    cbn [List.length Nat.ltb Nat.leb].
    assert (H : forall r, existsb (tag_matches r) (t :: tags) = true).
    { intros r. apply existsb_exists. exists "". split; [exact Hin|].
      apply toLowerCase_empty_matches. }
    induction (baseReports w id) as [|x l IH]; [reflexivity|].
    cbn [filter]. now rewrite H, IH.
  - intros tags tags' r. apply tag_filter_monotone.
Qed.

End TagFilter.

(* ================================================================= *)
(** ** Identifiers of the fixture reports *)

Module Fixture.
Import SocialMediaService.

Lemma prepend_injective (p a b : string) : (p ++ a = p ++ b)%string -> a = b.
Proof.
  induction p as [|c p IH]; cbn; [tauto|]. intros [= H]. now apply IH.
Qed.

Lemma tweet_id_injective (id n m : string) :
  tweet_id id n = tweet_id id m -> n = m.
Proof.
  unfold tweet_id. intros H.
  apply prepend_injective, prepend_injective in H.
  now apply (prepend_injective "_") in H.
Qed.

Lemma distinct_after_filter (A B : Type) (f : A -> B) (keep : A -> bool)
    (l : list A) :
  NoDup (map f l) -> NoDup (map f (filter keep l)).
Proof.
  induction l as [|r l IH]; [constructor|].
  cbn [map]. intros H. inversion H as [|? ? Hr Hl]; subst.
  cbn [filter]. destruct (keep r); [|now apply IH].
  cbn [map]. constructor; [|now apply IH].
  intros Hin. apply Hr. apply in_map_iff in Hin as (x & Hx & Hin).
  apply filter_In in Hin as [Hin _]. apply in_map_iff. now exists x.
Qed.

(** X3.  The reports that [generateEnhancedMockReports] returns have
    pairwise distinct identifiers, each of the form tweet_, the disaster
    identifier, an underscore and a number, and the platform Twitter. *)
Theorem report_ids_are_distinct (w : World) (disasterId : string)
    (tags : list string) :
  NoDup (map id (generateEnhancedMockReports w tags disasterId)) /\
  Forall (fun r => exists n, id r = tweet_id disasterId n /\
                             platform r = "Twitter")
         (generateEnhancedMockReports w tags disasterId).
Proof.
  assert (Hbase : NoDup (map id (baseReports w disasterId))).
  { cbn [baseReports map id].
    repeat (constructor;
            [cbn [In]; intros H;
             repeat (destruct H as [H|H];
                     [apply tweet_id_injective in H; discriminate H|]);
             exact H|]).
    constructor. }
  assert (Hall : Forall (fun r => exists n, id r = tweet_id disasterId n /\
                                            platform r = "Twitter")
                        (baseReports w disasterId)).
  { unfold baseReports.
    repeat (apply Forall_cons; [eexists; split; reflexivity|]).
    apply Forall_nil. }
  unfold generateEnhancedMockReports.
  destruct (0 <? List.length tags)%nat; split;
    [now apply distinct_after_filter | | exact Hbase | exact Hall].
  apply Forall_forall. intros r Hr. apply filter_In in Hr as [Hr _].
  revert r Hr. now apply Forall_forall.
Qed.

End Fixture.

(* ================================================================= *)
(** ** What the operations read from and write to the cache *)

Module CacheUse.
Import GeminiService SocialMediaService.

(** X4.  The three cached operations write to the cache only what they
    return: a write that succeeds has the key of the call, and its value is
    the result of the call. *)
Theorem successful_write_is_the_result (w : World) :
  (forall id tags key value ttl,
      In (CacheSet key value ttl) (events_of (fetchSocialMediaReports w id tags)) ->
      cache_set w key value ttl = Ok tt ->
      key = social_key id tags /\
      exists reports, value = CacheReports reports /\
        result_of (fetchSocialMediaReports w id tags) = Ok reports) /\
  (forall d key value ttl,
      In (CacheSet key value ttl) (events_of (extractLocation w d)) ->
      cache_set w key value ttl = Ok tt ->
      key = location_key d /\
      exists r, value = CacheLocation r /\
        result_of (extractLocation w d) = Ok r) /\
  (forall url key value ttl,
      In (CacheSet key value ttl) (events_of (verifyImage w url)) ->
      cache_set w key value ttl = Ok tt ->
      key = image_key url /\
      exists r, value = CacheImage r /\
        result_of (verifyImage w url) = Ok r).
Proof.
  repeat apply conj.
  - intros id tags key value ttl. run_services. split_answers_eq.
    all: intros H Hset; in_events H; subst; try clash.
    all: split; [reflexivity|]; eexists; split; reflexivity.
  - intros d key value ttl. run_services. split_answers_eq.
    all: intros H Hset; in_events H; subst; try clash.
    all: split; [reflexivity|]; eexists; split; reflexivity.
  - intros url key value ttl. run_services. split_answers_eq.
    all: intros H Hset; in_events H; subst; try clash.
    all: split; [reflexivity|]; eexists; split; reflexivity.
Qed.

(** X5.  On a cache hit each of the three operations returns the cached
    value as it is, after the read and the log of the hit: nothing is
    computed, requested or written. *)
Theorem cache_hit_is_returned_unchanged (w : World) :
  (forall id tags hit,
      cache_get_reports w (social_key id tags) = Ok (Some hit) ->
      fetchSocialMediaReports w id tags [] =
        (Ok hit, [CacheGet (social_key id tags);
                  Log "info" "Social media cache hit"])) /\
  (forall d hit,
      cache_get_location w (location_key d) = Ok (Some hit) ->
      extractLocation w d [] =
        (Ok hit, [CacheGet (location_key d);
                  Log "info" "Location extraction cache hit"])) /\
  (forall url hit,
      cache_get_image w (image_key url) = Ok (Some hit) ->
      verifyImage w url [] =
        (Ok hit, [CacheGet (image_key url);
                  Log "info" "Image verification cache hit"])).
Proof.
  repeat apply conj; intros; run_services;
    match goal with H : _ = Ok (Some _) |- _ => rewrite H end; reflexivity.
Qed.

End CacheUse.

(* ================================================================= *)
(** ** A fetch that misses the cache *)

Module FreshFetch.
Import SocialMediaService.

(** X6.  On a cache miss with a cache that accepts the write,
    [fetchSocialMediaReports] returns the reports generated for the tags,
    after reading the cache, writing them for half an hour and logging
    their number.  They are at most eight fixture reports, and with tags
    given each of them carries one of the tags. *)
Theorem fresh_fetch_returns_the_tagged_reports (w : World) (id : string)
    (tags : list string) :
  cache_get_reports w (social_key id tags) = Ok None ->
  cache_set w (social_key id tags)
    (CacheReports (generateEnhancedMockReports w tags id))
    (Some (5 # 10)%Q) = Ok tt ->
  fetchSocialMediaReports w id tags [] =
    (Ok (generateEnhancedMockReports w tags id),
     [CacheGet (social_key id tags);
      CacheSet (social_key id tags)
        (CacheReports (generateEnhancedMockReports w tags id))
        (Some (5 # 10)%Q);
      Log "info"
        ("Fetched " ++
         Js.show_nat (List.length (generateEnhancedMockReports w tags id)) ++
         " social media reports")]) /\
  (List.length (generateEnhancedMockReports w tags id) <= 8)%nat /\
  (tags <> [] ->
   forall r, In r (generateEnhancedMockReports w tags id) ->
             In r (baseReports w id) /\
             exists tag, In tag tags /\ carries_tag r tag).
Proof.
  intros Hget Hset. split; [|split].
  - run_services. now rewrite Hget, Hset.
  - unfold generateEnhancedMockReports.
    destruct (0 <? List.length tags)%nat; [|cbn; lia].
    etransitivity; [apply filter_length_le | cbn; lia].
  - intros Hne r. unfold generateEnhancedMockReports.
    destruct tags as [|t tags]; [congruence|].
    cbn [List.length Nat.ltb Nat.leb]. rewrite filter_In, existsb_exists.
    intros [Hin (tag & Htag & H)]. split; [exact Hin|].
    exists tag. split; [exact Htag | now apply TagFilter.tag_matches_carries].
Qed.

Lemma fresh_fetch_returns_the_tagged_reports_witness :
  cache_get_reports no_credential (social_key "d42" ["flood"]) = Ok None /\
  result_of (fetchSocialMediaReports no_credential "d42" ["flood"]) =
    Ok (generateEnhancedMockReports no_credential ["flood"] "d42") /\
  List.length (generateEnhancedMockReports no_credential ["flood"] "d42")
    = 2%nat.
Proof.
  split; [reflexivity|]. split; [|reflexivity].
  exact (f_equal fst
           (proj1 (fresh_fetch_returns_the_tagged_reports no_credential "d42"
                     ["flood"] eq_refl eq_refl))).
Defined.

End FreshFetch.

(* ================================================================= *)
(** ** Cache keys *)

Module KeyFacts.
Import GeminiService SocialMediaService.

Lemma append_assoc (a b c : string) :
  ((a ++ b) ++ c = a ++ (b ++ c))%string.
Proof. induction a as [|x a IH]; cbn; [reflexivity | now rewrite IH]. Qed.

Lemma list_of_append (a b : string) :
  list_ascii_of_string (a ++ b) =
  list_ascii_of_string a ++ list_ascii_of_string b.
Proof. induction a as [|x a IH]; cbn; [reflexivity | now rewrite IH]. Qed.

Lemma substring0_firstn (n : nat) (l : list ascii) :
  Js.substring0 n (string_of_list_ascii l) = string_of_list_ascii (firstn n l).
Proof.
  unfold Js.substring0. revert l. induction n as [|n IH]; intros [|c l]; cbn;
    try reflexivity. now rewrite IH.
Qed.

Lemma encode_prefix (pre x y : list nat) :
  (38 <= List.length pre)%nat ->
  firstn 50 (Base64.encode (pre ++ x)) = firstn 50 (Base64.encode (pre ++ y)).
Proof.
  intros H.
  do 38 (destruct pre as [|? pre]; [cbn in H; lia|]).
  cbn [app Base64.encode firstn].
  destruct (pre ++ x), (pre ++ y); reflexivity.
Qed.

Lemma base64_prefix (p a b : string) :
  (38 <= byte_length p)%nat ->
  Js.substring0 50 (Base64.of_string (p ++ a)) =
  Js.substring0 50 (Base64.of_string (p ++ b)).
Proof.
  intros H. unfold Base64.of_string.
  rewrite !substring0_firstn, !list_of_append, !flat_map_app.
  f_equal. now apply encode_prefix.
Qed.

(** X7.  The keys of the three operations lie in three name spaces: a key
    of one operation is never a key of another. *)
Theorem cache_keys_are_namespaced (id : string) (tags : list string)
    (d url : string) :
  social_key id tags <> location_key d /\
  social_key id tags <> image_key url /\
  location_key d <> image_key url.
Proof. repeat split; discriminate. Qed.

(** X8.  The key of the feed does not tell the identifier from the tags:
    the identifier [id] with the tags [t :: tags] has the key of the
    identifier [id_t] with the tags [tags], so the reports cached for one
    are returned for the other. *)
Theorem social_key_merges_id_and_tags (w : World) (id t : string)
    (tags : list string) :
  tags <> [] ->
  social_key (id ++ "_" ++ t) tags = social_key id (t :: tags) /\
  (forall hit,
      cache_get_reports w (social_key (id ++ "_" ++ t) tags) = Ok (Some hit) ->
      result_of (fetchSocialMediaReports w id (t :: tags)) = Ok hit).
Proof.
  intros Hne.
  assert (Hkey : social_key (id ++ "_" ++ t) tags = social_key id (t :: tags)).
  { unfold social_key. destruct tags as [|t' tags]; [congruence|].
    cbn [Js.join]. now rewrite !append_assoc. }
  split; [exact Hkey|].
  intros hit Hhit. rewrite Hkey in Hhit. run_services. now rewrite Hhit.
Qed.

Lemma social_key_merges_id_and_tags_witness :
  ["fire"] <> [] /\
  social_key "d1_flood" ["fire"] = social_key "d1" ["flood"; "fire"] /\
  social_key "d1" ["flood"; "fire"] = "social_media_d1_flood_fire".
Proof.
  split; [discriminate|]. split; [|reflexivity].
  exact (proj1 (social_key_merges_id_and_tags no_credential "d1" "flood"
                  ["fire"] ltac:(discriminate))).
Defined.

(** X9.  The keys of the location resolver and of the image authenticator
    keep fifty characters of the base64 text: two inputs with the same
    first 38 bytes have one key, and the result cached for one is returned
    for the other. *)
Theorem long_inputs_share_cache_entries (w : World) (p a b : string) :
  (38 <= byte_length p)%nat ->
  location_key (p ++ a) = location_key (p ++ b) /\
  image_key (p ++ a) = image_key (p ++ b) /\
  (forall hit,
      cache_get_location w (location_key (p ++ a)) = Ok (Some hit) ->
      result_of (extractLocation w (p ++ b)) = Ok hit) /\
  (forall hit,
      cache_get_image w (image_key (p ++ a)) = Ok (Some hit) ->
      result_of (verifyImage w (p ++ b)) = Ok hit).
Proof.
  intros H.
  assert (Hl : location_key (p ++ a) = location_key (p ++ b))
    by (unfold location_key; now rewrite (base64_prefix p a b H)).
  assert (Hi : image_key (p ++ a) = image_key (p ++ b))
    by (unfold image_key; now rewrite (base64_prefix p a b H)).
  split; [exact Hl|]. split; [exact Hi|]. split.
  - intros hit Hhit. rewrite Hl in Hhit. run_services. now rewrite Hhit.
  - intros hit Hhit. rewrite Hi in Hhit. run_services. now rewrite Hhit.
Qed.

Lemma long_inputs_share_cache_entries_witness :
  (38 <= byte_length long_report)%nat /\
  location_key (long_report ++ "north side") =
    location_key (long_report ++ "south side").
Proof.
  assert (H : (38 <= byte_length long_report)%nat)
    by (apply Nat.leb_le; reflexivity).
  split; [exact H|].
  exact (proj1 (long_inputs_share_cache_entries no_credential long_report
                  "north side" "south side" H)).
Defined.

End KeyFacts.

(* ================================================================= *)
(** ** Paths of the image authenticator *)

Module ImagePaths.
Import GeminiService.

(** X10.  [verifyImage] always returns a result.  Unless it is the cached
    one, its status fixes its confidence: 0 for "invalid" and "error", 0.5
    for "basic_check", the score of the top label for "authentic", and for
    "analyzed" that score or 0.7. *)
Theorem verifyImage_never_raises (w : World) (url : string) :
  exists r,
    result_of (verifyImage w url) = Ok r /\
    (cache_get_image w (image_key url) = Ok (Some r) \/ status_confidence r).
Proof.
  unfold status_confidence, reports_top_score. run_services. split_answers.
  all: eexists; split; [reflexivity|]; try (now left); right.
  all: cbn [Verification.status Verification.confidence Verification.details].
  all: first
    [ left; split; reflexivity
    | right; left; split; reflexivity
    | right; right; left; split; reflexivity
    | right; right; right; left; split; [reflexivity|];
      first [ left; reflexivity | right; do 4 eexists; reflexivity ]
    | right; right; right; right; split; [reflexivity|];
      do 4 eexists; reflexivity ].
Qed.

Lemma image_type_truthy (t : string) :
  Js.startsWith t "image/" = true -> Js.truthy t = true.
Proof. destruct t; [discriminate | reflexivity]. Qed.

(** X11.  Without a credential, the verification of a valid URL sends one
    HEAD request and nothing else.  An image content type gives the
    "basic_check" result with the type and the size reported; any other or
    no content type gives "invalid"; a failed request gives "error" with
    the message of the failure. *)
Theorem basic_path_sends_one_head_request (w : World) (url : string) :
  has_token w = false ->
  isValidImageUrl w url = true ->
  events_of (performImageVerification w url) = [HttpHead url] /\
  (forall headers ct,
      head_image w url = Ok headers -> content_type headers = Some ct ->
      Js.startsWith ct "image/" = true ->
      result_of (performImageVerification w url) =
        Ok (basic_check_result ct (content_length headers))) /\
  (forall headers,
      head_image w url = Ok headers ->
      image_type (content_type headers) = false ->
      result_of (performImageVerification w url) =
        Ok (not_an_image_result (content_type headers))) /\
  (forall message,
      head_image w url = Throw message ->
      result_of (performImageVerification w url) =
        Ok (analysis_error_result
              ("Basic image validation failed: " ++ message))).
Proof.
  intros Htoken Hurl. repeat apply conj.
  - run_services. rewrite Hurl, Htoken. cbv beta iota.
    split_answers; reflexivity.
  - intros headers ct Hhead Hct Himage. run_services.
    rewrite Hurl, Htoken. cbv beta iota. rewrite Hhead. cbv beta iota.
    rewrite Hct, Himage, (image_type_truthy ct Himage). reflexivity.
  - intros headers Hhead Himage. run_services.
    rewrite Hurl, Htoken. cbv beta iota. rewrite Hhead. cbv beta iota.
    unfold image_type in Himage.
    destruct (content_type headers) as [ct|]; [|reflexivity].
    rewrite Himage, andb_false_r. reflexivity.
  - intros message Hhead. run_services.
    rewrite Hurl, Htoken. cbv beta iota. rewrite Hhead. reflexivity.
Qed.

Lemma basic_path_sends_one_head_request_witness :
  has_token (with_head no_credential (Ok png_headers)) = false /\
  isValidImageUrl (with_head no_credential (Ok png_headers)) flood_picture
    = true /\
  events_of (performImageVerification
               (with_head no_credential (Ok png_headers)) flood_picture) =
    [HttpHead flood_picture] /\
  result_of (performImageVerification
               (with_head no_credential (Ok png_headers)) flood_picture) =
    Ok (basic_check_result "image/png" (Some "2048")).
Proof.
  split; [reflexivity|]. split; [reflexivity|].
  pose (H := basic_path_sends_one_head_request
               (with_head no_credential (Ok png_headers)) flood_picture
               eq_refl eq_refl).
  split.
  - exact (proj1 H).
  - exact (proj1 (proj2 H) png_headers "image/png" eq_refl eq_refl eq_refl).
Defined.

Lemma disaster_label_decides (label : string) :
  existsb (fun keyword => Js.includes (Js.toLowerCase label) keyword)
          disasterKeywords = true <-> disaster_label label.
Proof.
  unfold disaster_label. rewrite existsb_exists.
  split; intros (kw & Hin & H); exists kw; (split; [exact Hin|]);
    now apply JsFacts.includes_ignoring_case.
Qed.

(** X12.  With a credential, a valid URL and a classification whose top
    entry is a label with a score, the verification fetches the image and
    posts it once; the confidence is that score, and the status is
    "authentic" exactly when one of the six disaster words occurs in the
    label, the case of letters ignored, and "analyzed" otherwise. *)
Theorem top_label_decides_the_result (w : World) (url image label : string)
    (score : Q) (rest : list class_item) :
  has_token w = true ->
  isValidImageUrl w url = true ->
  get_image w url = Ok image ->
  post_classify w image = Ok (ClassArray (Item label (Some score) :: rest)) ->
  events_of (performImageVerification w url) =
    [HttpGet url; HttpPost classify_url] /\
  exists r,
    result_of (performImageVerification w url) = Ok r /\
    Verification.confidence r = Some score /\
    reports_top_score r /\
    (disaster_label label -> Verification.status r = "authentic") /\
    (~ disaster_label label -> Verification.status r = "analyzed").
Proof.
  intros Htoken Hurl Hget Hpost. split.
  - run_services. rewrite Hurl, Htoken. cbv beta iota.
    rewrite Hget. cbv beta iota. cbn [app]. rewrite Hpost. reflexivity.
  - run_services. rewrite Hurl, Htoken. cbv beta iota.
    rewrite Hget. cbv beta iota. cbn [app]. rewrite Hpost. cbv beta iota.
    eexists. split; [reflexivity|]. split; [reflexivity|]. split.
    + unfold reports_top_score. do 4 eexists. reflexivity.
    + cbn [Verification.status].
      destruct (existsb _ disasterKeywords) eqn:E.
      * split; [reflexivity|]. intros Hno. elim Hno.
        now apply disaster_label_decides.
      * split; [|reflexivity]. intros Hyes.
        apply disaster_label_decides in Hyes. congruence.
Qed.

Lemma top_label_decides_the_result_witness :
  has_token classifier_sees_flood = true /\
  isValidImageUrl classifier_sees_flood flood_picture = true /\
  get_image classifier_sees_flood flood_picture = Ok "image bytes" /\
  events_of (performImageVerification classifier_sees_flood flood_picture) =
    [HttpGet flood_picture; HttpPost classify_url].
Proof.
  split; [reflexivity|]. split; [reflexivity|]. split; [reflexivity|].
  exact (proj1 (top_label_decides_the_result classifier_sees_flood
                  flood_picture "image bytes" "Flood water" (9 # 10)%Q
                  [Item "lakeside" (Some (1 # 10)%Q)]
                  eq_refl eq_refl eq_refl eq_refl)).
Defined.

(** X13.  On a cache miss [verifyImage] writes the result of the
    verification to the cache, with no time-to-live, whatever its status:
    the "error" result of an image that could not be fetched is cached as
    well. *)
Theorem computed_verifications_are_cached (w : World) (url : string) :
  cache_get_image w (image_key url) = Ok None ->
  exists r,
    result_of (performImageVerification w url) = Ok r /\
    In (CacheSet (image_key url) (CacheImage r) None)
       (events_of (verifyImage w url)) /\
    (has_token w = true -> isValidImageUrl w url = true ->
     (exists message, get_image w url = Throw message) ->
     Verification.status r = "error") /\
    (has_token w = false -> isValidImageUrl w url = true ->
     (exists message, head_image w url = Throw message) ->
     Verification.status r = "error").
Proof.
  intros Hmiss. run_services. rewrite Hmiss. cbv beta iota.
  split_answers_eq.
  all: eexists; split; [reflexivity|]; split;
    [cbn [In]; auto 6|].
  all: split; intros Ht Hu [? Hm]; try reflexivity;
    try congruence; try discriminate.
  all: rewrite Hu in *; discriminate.
Qed.

Lemma computed_verifications_are_cached_witness :
  cache_get_image image_host_down (image_key flood_picture) = Ok None /\
  exists r,
    result_of (performImageVerification image_host_down flood_picture) = Ok r /\
    In (CacheSet (image_key flood_picture) (CacheImage r) None)
       (events_of (verifyImage image_host_down flood_picture)).
Proof.
  split; [reflexivity|].
  destruct (computed_verifications_are_cached image_host_down flood_picture
              eq_refl) as (r & Hr & Hin & _).
  exists r. split; [exact Hr | exact Hin].
Defined.

End ImagePaths.

(* ================================================================= *)
(** ** Matches are parts of the text *)

Module PartFacts.
Import Regex GeminiService.

Lemma rest_of_refl (s : list ascii) : rest_of s s.
Proof. now exists []. Qed.

Lemma rest_of_trans (a b c : list ascii) :
  rest_of a b -> rest_of b c -> rest_of a c.
Proof.
  intros [p ->] [q ->]. exists (q ++ p). now rewrite app_assoc.
Qed.

Lemma rest_of_cons (c : ascii) (s : list ascii) : rest_of s (c :: s).
Proof. now exists [c]. Qed.

Lemma part_of_refl (s : list ascii) : part_of s s.
Proof. exists [], []. now rewrite app_nil_r. Qed.

Lemma part_of_trans (a b c : list ascii) :
  part_of a b -> part_of b c -> part_of a c.
Proof.
  intros (p & q & ->) (p' & q' & ->).
  exists (p' ++ p), (q ++ q'). now rewrite <- !app_assoc.
Qed.

Lemma rest_is_part (a b : list ascii) : rest_of a b -> part_of a b.
Proof. intros [p ->]. exists p, []. now rewrite app_nil_r. Qed.

Lemma star_loop_on_rest step fuel prev s k e :
  calls_on_rest step ->
  star_loop step k fuel prev s = Some e ->
  exists p s', rest_of s' s /\ k p s' = Some e.
Proof.
  intros Hstep. revert prev s.
  induction fuel as [|fuel IH]; intros prev s H; cbn [star_loop] in H.
  - exists prev, s. split; [apply rest_of_refl | exact H].
  - destruct (step prev s _) as [e'|] eqn:E.
    + injection H as ->. apply Hstep in E as (p & s' & Hrest & E).
      destruct (List.length s' <? List.length s)%nat; [|discriminate].
      apply IH in E as (p' & s'' & Hrest' & E).
      exists p', s''. split; [now apply rest_of_trans with s' | exact E].
    + exists prev, s. split; [apply rest_of_refl | exact H].
Qed.

Lemma run_on_rest ci r : calls_on_rest (run ci r).
Proof.
  induction r as [|c|ranges|r1 IH1 r2 IH2|r1 IH1 r2 IH2|r1 IH1| | |];
    intros prev s k e H; cbn [run] in H.
  - exists prev, s. split; [apply rest_of_refl | exact H].
  - destruct s as [|d s]; [discriminate|].
    destruct (char_matches ci c d); [|discriminate].
    exists (Some d), s. split; [apply rest_of_cons | exact H].
  - destruct s as [|d s]; [discriminate|].
    destruct (class_matches ci ranges d); [|discriminate].
    exists (Some d), s. split; [apply rest_of_cons | exact H].
  - apply IH1 in H as (p & s' & Hrest & H).
    apply IH2 in H as (p' & s'' & Hrest' & H).
    exists p', s''. split; [now apply rest_of_trans with s' | exact H].
  - destruct (run ci r1 prev s k) as [e'|] eqn:E.
    + injection H as ->. now apply IH1 in E.
    + now apply IH2 in H.
  - now apply star_loop_on_rest in H.
  - destruct (xorb _ _); [|discriminate].
    exists prev, s. split; [apply rest_of_refl | exact H].
  - destruct prev; [discriminate|].
    exists None, s. split; [apply rest_of_refl | exact H].
  - destruct s; [|discriminate].
    exists prev, []. split; [apply rest_of_refl | exact H].
Qed.

Lemma match_here_rest ci r prev s rest :
  match_here ci r prev s = Some rest ->
  exists m, s = m ++ rest /\ firstn (List.length s - List.length rest) s = m.
Proof.
  intros H. apply run_on_rest in H as (p & s' & [m ->] & [= <-]).
  exists m. split; [reflexivity|].
  rewrite length_app.
  replace (List.length m + List.length s' - List.length s')%nat
    with (List.length m) by lia.
  rewrite firstn_app, Nat.sub_diag, firstn_all. cbn. now rewrite app_nil_r.
Qed.

Lemma search_unfold ci r prev s :
  search ci r prev s =
  match match_here ci r prev s with
  | Some rest =>
      Some (Found [] (firstn (List.length s - List.length rest) s)
              (last_of prev (firstn (List.length s - List.length rest) s))
              rest)
  | None =>
      match s with
      | [] => None
      | c :: s' =>
          match search ci r (Some c) s' with
          | Some f => Some (Found (c :: skipped f) (matched f)
                                  (prev_after f) (rest_after f))
          | None => None
          end
      end
  end.
Proof. destruct s; reflexivity. Qed.

(** A search cuts the text in three: what it skipped, the match, and the
    rest. *)
Lemma search_split ci r prev s f :
  search ci r prev s = Some f ->
  s = skipped f ++ matched f ++ rest_after f.
Proof.
  revert prev f. induction s as [|c s IH]; intros prev f H;
    rewrite search_unfold in H;
    destruct (match_here ci r prev _) as [rest|] eqn:E.
  - apply match_here_rest in E as (m & Hs & Hm).
    injection H as <-. etransitivity; [exact Hs|].
    apply (f_equal (fun x => x ++ rest)). symmetry. exact Hm.
  - discriminate.
  - apply match_here_rest in E as (m & Hs & Hm).
    injection H as <-. etransitivity; [exact Hs|].
    apply (f_equal (fun x => x ++ rest)). symmetry. exact Hm.
  - destruct (search ci r (Some c) s) as [f'|] eqn:E'; [|discriminate].
    injection H as <-. unfold skipped at 1, matched at 1, rest_after at 1.
    rewrite (IH _ _ E') at 1. reflexivity.
Qed.

Lemma list_of_string_of (l : list ascii) :
  list_ascii_of_string (string_of_list_ascii l) = l.
Proof. apply list_ascii_of_string_of_list_ascii. Qed.

(** Every match of a global search is a part of the text searched. *)
Lemma match_loop_parts ci r fuel prev s m :
  In m (match_loop fuel ci r prev s) ->
  part_of (list_ascii_of_string m) s.
Proof.
  revert prev s. induction fuel as [|fuel IH]; intros prev s H; [contradiction|].
  cbn [match_loop] in H.
  destruct (search ci r prev s) as [f|] eqn:E; [|contradiction].
  apply search_split in E.
  destruct H as [<-|H].
  - rewrite list_of_string_of. exists (skipped f), (rest_after f). exact E.
  - assert (Hrest : part_of (rest_after f) s).
    { apply rest_is_part. exists (skipped f ++ matched f).
      now rewrite <- app_assoc. }
    destruct (matched f) as [|x xs].
    + destruct (rest_after f) as [|c rest] eqn:Er; [contradiction|].
      apply IH in H. apply part_of_trans with (c :: rest); [|exact Hrest].
      apply part_of_trans with rest; [exact H|].
      apply rest_is_part, rest_of_cons.
    + apply IH in H. now apply part_of_trans with (rest_after f).
Qed.

Lemma matches_are_parts (d m : string) (p : pattern) :
  In m (matches_of d p) ->
  part_of (list_ascii_of_string m) (list_ascii_of_string d).
Proof.
  unfold matches_of, match_global.
  destruct (match_loop _ _ _ _ _) as [|x l] eqn:E; [contradiction|].
  rewrite <- E. apply match_loop_parts.
Qed.

Lemma anchored_search_skips_nothing (r : regex) (s : list ascii) (f : found) :
  search true (Seq Bos r) None s = Some f -> skipped f = [].
Proof.
  rewrite search_unfold.
  destruct (match_here true (Seq Bos r) None s) as [rest|].
  - now intros [= <-].
  - destruct s as [|c s]; [discriminate|].
    now rewrite RegexFacts.search_anchored_later.
Qed.

Lemma string_of_app (a b : list ascii) :
  string_of_list_ascii (a ++ b) =
  (string_of_list_ascii a ++ string_of_list_ascii b)%string.
Proof. induction a as [|x a IH]; cbn; [reflexivity | now rewrite IH]. Qed.

Lemma part_of_occurs (c d : string) :
  part_of (list_ascii_of_string c) (list_ascii_of_string d) -> occurs_in c d.
Proof.
  intros (before & after & H).
  exists (string_of_list_ascii before), (string_of_list_ascii after).
  rewrite <- (string_of_list_ascii_of_string d), H, !string_of_app.
  now rewrite string_of_list_ascii_of_string.
Qed.

Lemma drop_spaces_rest (l : list ascii) : rest_of (Js.drop_spaces l) l.
Proof.
  induction l as [|c l IH]; cbn.
  - apply rest_of_refl.
  - destruct (Js.is_space c).
    + apply rest_of_trans with l; [exact IH | apply rest_of_cons].
    + apply rest_of_refl.
Qed.

Lemma trim_list (s : string) :
  list_ascii_of_string (Js.trim s) =
  rev (Js.drop_spaces (rev (Js.drop_spaces (list_ascii_of_string s)))).
Proof. unfold Js.trim. apply list_of_string_of. Qed.

Lemma trim_part (s : string) :
  part_of (list_ascii_of_string (Js.trim s)) (list_ascii_of_string s).
Proof.
  rewrite trim_list.
  apply part_of_trans with (Js.drop_spaces (list_ascii_of_string s));
    [|apply rest_is_part, drop_spaces_rest].
  destruct (drop_spaces_rest (rev (Js.drop_spaces (list_ascii_of_string s))))
    as [pre H].
  exists [], (rev pre). cbn [app].
  rewrite <- rev_app_distr, <- H. now rewrite rev_involutive.
Qed.

Lemma clean_part (m : string) :
  part_of (list_ascii_of_string (clean m)) (list_ascii_of_string m).
Proof.
  unfold clean, replace_first.
  destruct (search true leading_preposition None (list_ascii_of_string m))
    as [f|] eqn:E; [|apply trim_part].
  eapply part_of_trans; [apply trim_part|].
  pose proof (search_split _ _ _ _ _ E) as Hsplit.
  apply anchored_search_skips_nothing in E. rewrite E in *.
  cbn [string_of_list_ascii String.append app] in *.
  rewrite list_of_string_of. apply rest_is_part.
  now exists (matched f).
Qed.

Lemma drop_spaces_head (l : list ascii) (c : ascii) (t : list ascii) :
  Js.drop_spaces l = c :: t -> Js.is_space c = false.
Proof.
  induction l as [|x l IH]; cbn; [discriminate|].
  destruct (Js.is_space x) eqn:E; [exact IH|]. now intros [= <- _].
Qed.

Lemma drop_spaces_idem (l : list ascii) :
  Js.drop_spaces (Js.drop_spaces l) = Js.drop_spaces l.
Proof.
  induction l as [|x l IH]; cbn; [reflexivity|].
  destruct (Js.is_space x) eqn:E; [exact IH|]. cbn. now rewrite E.
Qed.

Lemma drop_spaces_snoc (l : list ascii) (c : ascii) :
  Js.is_space c = false ->
  Js.drop_spaces (l ++ [c]) = Js.drop_spaces l ++ [c].
Proof.
  intros Hc. induction l as [|x l IH]; cbn.
  - now rewrite Hc.
  - destruct (Js.is_space x); [exact IH | reflexivity].
Qed.

(** Trimming twice is trimming once. *)
Lemma trim_idempotent (s : string) : Js.trim (Js.trim s) = Js.trim s.
Proof.
  unfold Js.trim at 1. rewrite trim_list. unfold Js.trim. f_equal.
  destruct (Js.drop_spaces (list_ascii_of_string s)) as [|c t] eqn:E;
    [reflexivity|].
  pose proof (drop_spaces_head _ _ _ E) as Hc.
  cbn [rev]. rewrite (drop_spaces_snoc _ c Hc), rev_app_distr. cbn [rev app].
  cbn [Js.drop_spaces]. rewrite Hc. cbn [rev].
  rewrite rev_involutive, (drop_spaces_snoc _ c Hc), drop_spaces_idem.
  now rewrite rev_app_distr.
Qed.

Lemma candidates_are_cleaned_matches (d c : string) :
  In c (candidates d) ->
  exists p m, In p locationPatterns /\ In m (matches_of d p) /\ c = clean m.
Proof.
  unfold candidates. rewrite in_flat_map. intros (p & Hp & Hc).
  apply in_map_iff in Hc as (m & <- & Hm). now exists p, m.
Qed.

End PartFacts.

Module PatternAnswer.
Import GeminiService.

(** X14.  An answer of the pattern fallback is taken from the
    description: it occurs in it character by character, has no white space
    at either end, is longer than two characters and is no stop-word. *)
Theorem pattern_answer_is_taken_from_the_text (d c : string) :
  extractLocationWithPatterns d = Some c ->
  occurs_in c d /\ survives c /\ Js.trim c = c.
Proof.
  rewrite PatternFacts.extractLocationWithPatterns_head,
          PatternFacts.head_filter_some.
  intros (earlier & later & Hcand & Hkeep & _).
  assert (Hin : In c (candidates d))
    by (rewrite Hcand; apply in_elt).
  apply PartFacts.candidates_are_cleaned_matches in Hin
    as (p & m & _ & Hm & ->).
  split; [|split].
  - apply PartFacts.part_of_occurs.
    eapply PartFacts.part_of_trans; [apply PartFacts.clean_part|].
    now apply PartFacts.matches_are_parts with p.
  - now apply RegexFacts.keep_location_survives.
  - apply PartFacts.trim_idempotent.
Qed.

Lemma pattern_answer_is_taken_from_the_text_witness :
  extractLocationWithPatterns central_park = Some "Central Park" /\
  occurs_in "Central Park" central_park /\
  survives "Central Park" /\
  Js.trim "Central Park" = "Central Park".
Proof.
  split; [reflexivity|].
  exact (pattern_answer_is_taken_from_the_text central_park "Central Park"
           eq_refl).
Defined.

End PatternAnswer.

(* ================================================================= *)
(** ** Primary step and fallback of the location resolver *)

Module Primary.
Import GeminiService.

(** X15.  With a credential and a cold cache, the answer of the entity
    service wins when it is non-empty and not "Unknown": the patterns are
    not consulted.  When the request fails, the body is not an array, or
    the kept entities make the empty text or "Unknown", the result is that
    of the pattern fallback. *)
Theorem ner_answer_or_fallback (w : World) (d : string) :
  has_token w = true ->
  location_cache_cold w (location_key d) ->
  (forall ents,
      post_ner w d = Ok (NerEntities ents) ->
      ner_locations ents <> "" -> ner_locations ents <> "Unknown" ->
      result_of (extractLocation w d) = Ok (answer_result (ner_locations ents))) /\
  (ner_without_answer w d ->
   result_of (extractLocation w d) =
     Ok match extractLocationWithPatterns d with
        | Some l => answer_result l
        | None => no_answer_result
        end).
Proof.
  intros Htoken Hcold. split.
  - intros ents Hpost Hne Hunknown.
    assert (Htruthy : Js.truthy (ner_locations ents) = true).
    { unfold Js.truthy. apply negb_true_iff. now apply String.eqb_neq. }
    rewrite (Location.extractLocation_cold w d (Some (ner_locations ents)) Hcold).
    + cbn [ner_failed]. rewrite Htruthy.
      apply String.eqb_neq in Hunknown. rewrite Hunknown. cbn [negb orb].
      now rewrite Location.result_data_some.
    + run_services. rewrite Htoken, Hpost. cbv beta iota. now rewrite Htruthy.
  - intros Hnone.
    assert (Hner : exists ner,
               result_of (extractLocationWithNER w d) = Ok ner /\
               ner_failed ner = true).
    { destruct Hnone as [m Hpost | Hpost | ents Hpost [He|Hu]].
      - exists None. split; [|reflexivity].
        run_services. now rewrite Htoken, Hpost.
      - exists None. split; [|reflexivity].
        run_services. now rewrite Htoken, Hpost.
      - exists None. split; [|reflexivity].
        run_services. rewrite Htoken, Hpost. cbv beta iota. now rewrite He.
      - exists (Some "Unknown"). split; [|reflexivity].
        run_services. rewrite Htoken, Hpost. cbv beta iota. now rewrite Hu. }
    destruct Hner as (ner & Hner & Hfailed).
    rewrite (Location.extractLocation_cold w d ner Hcold Hner), Hfailed.
    now rewrite Location.result_data_patterns.
Qed.

Lemma ner_answer_or_fallback_witness :
  has_token (with_ner image_host_down (Ok (NerEntities bridge_entities)))
    = true /\
  location_cache_cold
    (with_ner image_host_down (Ok (NerEntities bridge_entities)))
    (location_key "Bob saw the water rise") /\
  result_of (extractLocation
               (with_ner image_host_down (Ok (NerEntities bridge_entities)))
               "Bob saw the water rise") =
    Ok (answer_result (ner_locations bridge_entities)).
Proof.
  assert (Hcold : location_cache_cold
                    (with_ner image_host_down
                       (Ok (NerEntities bridge_entities)))
                    (location_key "Bob saw the water rise"))
    by (split; reflexivity).
  split; [reflexivity|]. split; [exact Hcold|].
  apply (proj1 (ner_answer_or_fallback
                  (with_ner image_host_down (Ok (NerEntities bridge_entities)))
                  "Bob saw the water rise" eq_refl Hcold) bridge_entities).
  - reflexivity.
  - vm_compute. discriminate.
  - vm_compute. discriminate.
Defined.

Lemma result_data_never_error (extracted : option string) :
  Extraction.method (result_data extracted) <> "Error" /\
  Extraction.error (result_data extracted) = None.
Proof.
  unfold result_data. cbn [Extraction.method Extraction.error].
  destruct (answered extracted); split; (discriminate || reflexivity).
Qed.

(** X16.  [extractLocation] never writes its error result to the cache:
    every location written has a method other than "Error" and no error
    message.  A failed extraction is cached: with no credential, a cache
    miss and no pattern answer, the "Failed" result is written. *)
Theorem error_results_are_not_cached (w : World) (d : string) :
  (forall key r ttl,
      In (CacheSet key (CacheLocation r) ttl) (events_of (extractLocation w d)) ->
      Extraction.method r <> "Error" /\ Extraction.error r = None) /\
  (has_token w = false ->
   cache_get_location w (location_key d) = Ok None ->
   extractLocationWithPatterns d = None ->
   In (CacheSet (location_key d) (CacheLocation no_answer_result) None)
      (events_of (extractLocation w d))).
Proof.
  split.
  - intros key r ttl. run_services. split_answers.
    all: intros H; in_events H; subst.
    all: apply result_data_never_error.
  - intros Htoken Hmiss Hnone. run_services.
    rewrite Htoken, Hmiss. cbv beta iota. cbn [ner_failed].
    rewrite Hnone. change (result_data None) with no_answer_result.
    split_answers; cbn [In]; auto.
Qed.

End Primary.

(* ================================================================= *)
(** ** Cache protocol and error results *)

Module Protocol.
Import GeminiService SocialMediaService.

(** X17.  Each of the three cached operations consults the cache first,
    under the key of the call and only once, and writes to it at most
    once. *)
Theorem cache_is_read_first_and_once (w : World) :
  (forall id tags,
      cache_protocol (social_key id tags)
        (events_of (fetchSocialMediaReports w id tags))) /\
  (forall d,
      cache_protocol (location_key d) (events_of (extractLocation w d))) /\
  (forall url,
      cache_protocol (image_key url) (events_of (verifyImage w url))).
Proof.
  unfold cache_protocol. repeat apply conj.
  - intros id tags. run_services. split_answers.
    all: eexists; split; [reflexivity|]; split;
      [repeat constructor | cbn; lia].
  - intros d. run_services. split_answers.
    all: eexists; split; [reflexivity|]; split;
      [repeat constructor | cbn; lia].
  - intros url. run_services. split_answers.
    all: eexists; split; [reflexivity|]; split;
      [repeat constructor | cbn; lia].
Qed.

(** X18.  Only a failure of the cache reaches the error result.  When the
    cache read fails, or it misses and the write of the run fails,
    [extractLocation] returns the result with method "Error" that carries
    the message of the failure, and logs it; a computed result never has
    that method.  [verifyImage] then returns its "error" result with the
    message and the time, and logs it. *)
Theorem only_cache_failures_reach_the_error_result (w : World) :
  (forall d message,
      cache_fails (hit_of (cache_get_location w (location_key d))) w
        (events_of (extractLocation w d)) message ->
      result_of (extractLocation w d) = Ok (error_result message) /\
      In (Log "error" ("Location extraction error: " ++ message))
         (events_of (extractLocation w d))) /\
  (forall d r,
      result_of (extractLocation w d) = Ok r ->
      Extraction.method r = "Error" ->
      cache_get_location w (location_key d) = Ok (Some r) \/
      exists message,
        r = error_result message /\
        cache_fails (hit_of (cache_get_location w (location_key d))) w
          (events_of (extractLocation w d)) message) /\
  (forall url message,
      cache_fails (hit_of (cache_get_image w (image_key url))) w
        (events_of (verifyImage w url)) message ->
      result_of (verifyImage w url) = Ok (technical_error_result w message) /\
      In (Log "error" ("Image verification error: " ++ message))
         (events_of (verifyImage w url))).
Proof.
  unfold cache_fails. repeat apply conj.
  - intros d message. run_services. split_answers_eq.
    all: cbn [hit_of].
    all: intros [H|(H & key & value & ttl & Hin & Hset)]; try discriminate H.
    all: try (injection H as <-).
    all: try (in_events Hin; subst; try clash).
    all: try (split; [reflexivity | cbn [In]; auto 8]).
    all: try (same_failure; split; [reflexivity | cbn [In]; auto 8]).
  - intros d r. run_services. split_answers_eq.
    all: cbn [hit_of]; intros [= <-] Hm.
    all: try (now left).
    all: try (exfalso; now apply (proj1 (Primary.result_data_never_error _))
                                 in Hm).
    all: right; eexists; split; [reflexivity|].
    all: first [ left; reflexivity
               | right; split; [reflexivity|];
                 do 3 eexists; split; [cbn [In]; eauto 8 | eassumption] ].
  - intros url message. run_services. split_answers_eq.
    all: cbn [hit_of].
    all: intros [H|(H & key & value & ttl & Hin & Hset)]; try discriminate H.
    all: try (injection H as <-).
    all: try (in_events Hin; subst; try clash).
    all: try (split; [reflexivity | cbn [In]; auto 8]).
    all: try (same_failure; split; [reflexivity | cbn [In]; auto 8]).
Qed.

End Protocol.

(* ================================================================= *)
(** ** Triage and sentiment of lists already processed *)

Module OrderFacts.

Section Sorted.
Variable A : Type.
Variable compareFn : A -> A -> option Z.


End Sorted.



End OrderFacts.

Module FeedTriage.
Import SocialMediaService.



Lemma count_hits_bound (vocabulary : list string) (text : string) :
  (count_hits vocabulary text <= List.length vocabulary)%nat.
Proof. unfold count_hits. apply filter_length_le. Qed.

Lemma annotate_bounds (o : JsReport) :
  exists label score,
    annotations (annotate o) = Some (label, score) /\
    (-7 <= score <= 6)%Z /\
    (label = "negative" <-> score < 0)%Z /\
    (label = "positive" <-> 0 < score)%Z /\
    (label = "neutral" <-> score = 0)%Z.
Proof.
  unfold annotate, annotations. cbn [sentiment sentiment_score].
  pose proof (count_hits_bound positiveKeywords
                (Js.toLowerCase (content (fields o)))) as Hp.
  pose proof (count_hits_bound negativeKeywords
                (Js.toLowerCase (content (fields o)))) as Hn.
  set (p := count_hits positiveKeywords _) in *.
  set (n := count_hits negativeKeywords _) in *.
  change (List.length positiveKeywords) with 6%nat in Hp.
  change (List.length negativeKeywords) with 7%nat in Hn.
  eexists _, _. split; [reflexivity|]. split; [lia|].
  destruct (p <? n)%nat eqn:E1.
  - apply Nat.ltb_lt in E1.
    repeat split; intros H; try discriminate; try reflexivity; lia.
  - apply Nat.ltb_ge in E1. destruct (n <? p)%nat eqn:E2.
    + apply Nat.ltb_lt in E2.
      repeat split; intros H; try discriminate; try reflexivity; lia.
    + apply Nat.ltb_ge in E2.
      repeat split; intros H; try discriminate; try reflexivity; lia.
Qed.

Lemma analyzeSentiment_objects (h : heap) (reports : list nat)
    (h' : heap) (out : list nat) :
  analyzeSentiment h reports = Some (h', out) ->
  exists objects,
    List.length objects = List.length reports /\
    h' = h ++ map annotate objects /\
    out = seq (List.length h) (List.length reports).
Proof.
  revert h h' out. induction reports as [|r rest IH]; intros h h' out H.
  - injection H as <- <-. exists []. split; [reflexivity|].
    now rewrite app_nil_r.
  - cbn [analyzeSentiment] in H.
    destruct (nth_error h r) as [o|] eqn:Ho; [|discriminate].
    destruct (analyzeSentiment (h ++ [annotate o]) rest) as [[h1 out1]|] eqn:E;
      [|discriminate].
    injection H as <- <-.
    apply IH in E as (objects & Hlen & -> & ->).
    exists (o :: objects). split; [|split].
    + cbn [List.length]. now rewrite Hlen.
    + cbn [map]. now rewrite <- app_assoc.
    + cbn [List.length seq]. rewrite length_app. cbn [List.length].
      now rewrite Nat.add_1_r.
Qed.

(** X20.  Every object that [analyzeSentiment] returns carries a score
    between -7 and 6, and its label is "negative", "positive" or "neutral"
    as the score is below, above or equal to zero. *)
Theorem sentiment_score_is_bounded (h : heap) (reports : list nat)
    (h' : heap) (out : list nat) :
  analyzeSentiment h reports = Some (h', out) ->
  Forall (fun r' =>
            exists o' label score,
              nth_error h' r' = Some o' /\
              annotations o' = Some (label, score) /\
              (-7 <= score <= 6)%Z /\
              (label = "negative" <-> score < 0)%Z /\
              (label = "positive" <-> 0 < score)%Z /\
              (label = "neutral" <-> score = 0)%Z) out.
Proof.
  intros H. apply analyzeSentiment_objects in H as (objects & Hlen & -> & ->).
  apply Forall_forall. intros r' Hr'. apply in_seq in Hr'.
  destruct (nth_error objects (r' - List.length h)) as [o|] eqn:Ho.
  - destruct (annotate_bounds o) as (label & score & Hann & Hrest).
    exists (annotate o), label, score. split; [|split; [exact Hann | exact Hrest]].
    rewrite nth_error_app2 by lia. now rewrite nth_error_map, Ho.
  - apply nth_error_None in Ho. lia.
Qed.

Lemma sentiment_score_is_bounded_witness :
  Forall (fun r' =>
            exists o' label score,
              nth_error
                [plain (sample_report "trapped, danger: flood and fire" "low" 0);
                 annotate
                   (plain (sample_report "trapped, danger: flood and fire"
                             "low" 0))] r' = Some o' /\
              annotations o' = Some (label, score) /\
              (-7 <= score <= 6)%Z /\
              (label = "negative" <-> score < 0)%Z /\
              (label = "positive" <-> 0 < score)%Z /\
              (label = "neutral" <-> score = 0)%Z) [1%nat].
Proof.
  apply (sentiment_score_is_bounded
           [plain (sample_report "trapped, danger: flood and fire" "low" 0)]
           [0%nat]).
  reflexivity.
Defined.

End FeedTriage.

(* ================================================================= *)
(** ** Facts about the feed component *)

Module Feed.
Import SocialMediaService SocialMediaFeed.

Lemma keyword_matches_tag (r : Report) (k : string) :
  keyword_matches r k = tag_matches r k.
Proof. unfold keyword_matches, tag_matches. apply orb_comm. Qed.

Lemma filter_true (A : Type) (l : list A) : filter (fun _ => true) l = l.
Proof. induction l as [|x l IH]; cbn; [reflexivity | now rewrite IH]. Qed.

Lemma filter_filter (A : Type) (f g : A -> bool) (l : list A) :
  filter g (filter f l) = filter (fun x => f x && g x) l.
Proof.
  induction l as [|x l IH]; [reflexivity|]. cbn [filter].
  destruct (f x); cbn [filter andb]; [destruct (g x)|]; now rewrite IH.
Qed.

Lemma filteredReports_filter (reports : list Report) (p k : string) :
  filteredReports reports p k = filter (passes p k) reports.
Proof.
  unfold filteredReports, passes.
  destruct (p =? "all"), (Js.truthy k); cbn [negb orb andb].
  - apply filter_ext. intros r. reflexivity.
  - symmetry. apply filter_true.
  - rewrite filter_filter. reflexivity.
  - apply filter_ext. intros r. now rewrite andb_true_r.
Qed.

Lemma passes_shown (p k : string) (r : Report) :
  passes p k r = true <-> shown p k r.
Proof.
  unfold passes, shown.
  rewrite andb_true_iff, !orb_true_iff, !String.eqb_eq, keyword_matches_tag.
  rewrite TagFilter.tag_matches_carries.
  split; intros [Hp Hk]; (split; [exact Hp|]).
  - destruct Hk as [Hk|Hk]; [|exact Hk].
    apply negb_true_iff in Hk. unfold Js.truthy in Hk.
    apply negb_false_iff, String.eqb_eq in Hk. subst k.
    apply TagFilter.tag_matches_carries, TagFilter.toLowerCase_empty_matches.
  - now right.
Qed.

(** X21.  The feed shows the reports received that pass both filters, in
    the order received: the priority filter is "all" or the priority of the
    report, and the report carries the keyword.  The filters "all" and the
    empty keyword show every report, and filtering the reports shown again
    changes nothing. *)
Theorem feed_shows_matching_reports (reports : list Report) (p k : string) :
  (exists keep : Report -> bool,
      (forall r, keep r = true <-> shown p k r) /\
      filteredReports reports p k = filter keep reports) /\
  filteredReports reports "all" "" = reports /\
  filteredReports (filteredReports reports p k) p k =
    filteredReports reports p k.
Proof.
  split; [|split].
  - exists (passes p k). split; [apply passes_shown | apply filteredReports_filter].
  - reflexivity.
  - rewrite !filteredReports_filter, filter_filter.
    apply filter_ext. intros r. apply andb_diag.
Qed.

(** X22.  The keyword filter of the feed and the tag filter of the service
    agree: filtering the fixture reports by a keyword in the feed gives the
    reports that the service generates for that keyword as its only tag,
    and all of them are among the reports generated for any list of tags
    that holds the keyword. *)
Theorem feed_keyword_is_server_tag (w : World) (id k : string) :
  filteredReports (baseReports w id) "all" k =
    generateEnhancedMockReports w [k] id /\
  (forall tags,
      In k tags ->
      incl (filteredReports (baseReports w id) "all" k)
           (generateEnhancedMockReports w tags id)).
Proof.
  assert (Hone : filteredReports (baseReports w id) "all" k =
                 generateEnhancedMockReports w [k] id).
  { unfold filteredReports, generateEnhancedMockReports.
    cbn [String.eqb Ascii.eqb Bool.eqb negb List.length Nat.ltb Nat.leb].
    destruct (Js.truthy k) eqn:E.
    - apply filter_ext. intros r. cbn [existsb].
      now rewrite orb_false_r, keyword_matches_tag.
    - unfold Js.truthy in E. apply negb_false_iff, String.eqb_eq in E. subst k.
      symmetry. transitivity (filter (fun _ => true) (baseReports w id)).
      + apply filter_ext. intros r. cbn [existsb].
        now rewrite TagFilter.toLowerCase_empty_matches.
      + apply filter_true. }
  split; [exact Hone|].
  intros tags Hin r Hr. rewrite Hone in Hr.
  apply (TagFilter.tag_filter_monotone w id [k] tags r);
    [discriminate | | exact Hr].
  intros x [<-|[]]. exact Hin.
Qed.

End Feed.

(* ================================================================= *)
(** ** The text made from the entities *)

Module MarkFacts.
Import Regex GeminiService.

Lemma match_here_mark (prev : option ascii) (s : list ascii) :
  match_here false (lit "##") prev s =
  match s with
  | c :: d :: rest => if is_hash c && is_hash d then Some rest else None
  | _ => None
  end.
Proof.
  unfold match_here, is_hash.
  destruct s as [|c [|d rest]]; cbn [lit run]; unfold char_matches.
  - reflexivity.
  - now destruct (Ascii.eqb "#" c).
  - now destruct (Ascii.eqb "#" c), (Ascii.eqb "#" d).
Qed.

Lemma replace_loop_step (fuel : nat) (prev : option ascii) (c d : ascii)
    (rest : list ascii) :
  replace_loop (S fuel) false (lit "##") "" prev (c :: d :: rest) =
  if is_hash c && is_hash d
  then replace_loop fuel false (lit "##") "" (Some d) rest
  else String c (replace_loop (S fuel) false (lit "##") "" (Some c) (d :: rest)).
Proof.
  cbn [replace_loop].
  rewrite (PartFacts.search_unfold false (lit "##") prev (c :: d :: rest)).
  rewrite match_here_mark.
  destruct (is_hash c && is_hash d) eqn:E.
  - replace (List.length (c :: d :: rest) - List.length rest)%nat with 2%nat
      by (cbn [List.length]; lia).
    reflexivity.
  - destruct (search false (lit "##") (Some c) (d :: rest)) as [f|];
      reflexivity.
Qed.

Lemma replace_loop_short (fuel : nat) (prev : option ascii) (s : list ascii) :
  (List.length s <= 1)%nat ->
  replace_loop fuel false (lit "##") "" prev s = string_of_list_ascii s.
Proof.
  intros H. destruct fuel; [reflexivity|].
  cbn [replace_loop]. rewrite PartFacts.search_unfold, match_here_mark.
  destruct s as [|c [|d rest]]; [reflexivity | | cbn [List.length] in H; lia].
  now rewrite PartFacts.search_unfold, match_here_mark.
Qed.

Lemma without_marks_unfold (c d : ascii) (rest : list ascii) :
  without_marks (c :: d :: rest) =
  if is_hash c && is_hash d then without_marks rest
  else c :: without_marks (d :: rest).
Proof. reflexivity. Qed.

Lemma replace_loop_marks (n : nat) :
  forall fuel prev s,
    (List.length s <= n)%nat -> (List.length s < 2 * fuel)%nat ->
    replace_loop fuel false (lit "##") "" prev s =
    string_of_list_ascii (without_marks s).
Proof.
  induction n as [|n IH]; intros fuel prev s Hn Hfuel.
  - destruct s; [|cbn in Hn; lia]. now destruct fuel.
  - destruct s as [|c [|d rest]].
    + now destruct fuel.
    + now rewrite replace_loop_short.
    + destruct fuel as [|fuel]; [lia|].
      rewrite replace_loop_step, without_marks_unfold.
      cbn [List.length] in Hn, Hfuel.
      destruct (is_hash c && is_hash d).
      * apply IH; lia.
      * cbn [string_of_list_ascii]. f_equal.
        apply IH; cbn [List.length]; lia.
Qed.

Lemma replace_all_marks (s : string) :
  replace_all false (lit "##") "" s =
  string_of_list_ascii (without_marks (list_ascii_of_string s)).
Proof.
  unfold replace_all.
  apply replace_loop_marks with (n := List.length (list_ascii_of_string s)); lia.
Qed.

Lemma without_marks_head (d : ascii) (rest : list ascii) :
  is_hash d = false ->
  without_marks (d :: rest) = d :: without_marks rest.
Proof.
  intros H. cbn [without_marks]. destruct rest as [|e rest]; [reflexivity|].
  now rewrite H.
Qed.

Lemma without_marks_clean (n : nat) :
  forall s, (List.length s <= n)%nat ->
            Js.includes (string_of_list_ascii (without_marks s)) "##" = false.
Proof.
  induction n as [|n IH]; intros s Hn.
  - destruct s; [reflexivity | cbn in Hn; lia].
  - destruct s as [|c [|d rest]]; [reflexivity | |].
    + cbn [without_marks string_of_list_ascii].
      rewrite JsFacts.includes_unfold. cbn [String.prefix].
      now destruct (ascii_dec "#" c).
    + cbn [List.length] in Hn. rewrite without_marks_unfold.
      destruct (is_hash c && is_hash d) eqn:E.
      * apply IH. lia.
      * cbn [string_of_list_ascii]. rewrite JsFacts.includes_unfold.
        rewrite (IH (d :: rest)) by (cbn [List.length]; lia).
        rewrite orb_false_r. cbn [String.prefix].
        destruct (ascii_dec "#" c) as [<-|Hc]; [|reflexivity].
        change (is_hash "#") with true in E. cbn [andb] in E.
        rewrite (without_marks_head d rest E).
        cbn [string_of_list_ascii String.prefix]. unfold is_hash in E.
        destruct (ascii_dec "#" d) as [<-|Hd]; [discriminate|reflexivity].
Qed.

Lemma replace_all_clean (s : string) :
  ~ occurs_in "##" (replace_all false (lit "##") "" s).
Proof.
  rewrite replace_all_marks. intros H.
  apply JsFacts.includes_occurs in H.
  now rewrite (without_marks_clean _ _ (Nat.le_refl _)) in H.
Qed.

Lemma occurs_part (kw c d : string) :
  occurs_in kw c ->
  part_of (list_ascii_of_string c) (list_ascii_of_string d) ->
  occurs_in kw d.
Proof.
  intros (before & after & ->) Hpart. apply PartFacts.part_of_occurs.
  eapply PartFacts.part_of_trans; [|exact Hpart].
  exists (list_ascii_of_string before), (list_ascii_of_string after).
  now rewrite !KeyFacts.list_of_append.
Qed.

Lemma ner_locations_clean (ents : list Entity) :
  Js.trim (ner_locations ents) = ner_locations ents /\
  ~ occurs_in "##" (ner_locations ents).
Proof.
  unfold ner_locations. split.
  - apply PartFacts.trim_idempotent.
  - intros H. eapply replace_all_clean.
    eapply occurs_part; [exact H | apply PartFacts.trim_part].
Qed.

End MarkFacts.

Module NerStep.
Import GeminiService.

(** X23.  [extractLocationWithNER] never raises and sends at most the one
    request to the entity model; without a credential it answers nothing.
    An answer is the text made from the entities of the response: it is
    not empty, has no white space at either end, and holds no "##" mark. *)
Theorem ner_step_answers_clean_text (w : World) (d : string) :
  exists r,
    result_of (extractLocationWithNER w d) = Ok r /\
    (List.length (filter is_http (events_of (extractLocationWithNER w d)))
       <= 1)%nat /\
    Forall (fun e => is_http e = true -> e = HttpPost ner_url)
           (events_of (extractLocationWithNER w d)) /\
    (has_token w = false ->
     r = None /\
     Forall (fun e => is_http e = false)
            (events_of (extractLocationWithNER w d))) /\
    (forall l, r = Some l ->
               l <> "" /\ Js.trim l = l /\ ~ occurs_in "##" l /\
               exists ents, post_ner w d = Ok (NerEntities ents) /\
                            l = ner_locations ents).
Proof.
  run_services. destruct (has_token w) eqn:Htoken; cbv beta iota.
  - destruct (post_ner w d) as [[ents|]|message] eqn:Hpost; cbv beta iota.
    + eexists. split; [reflexivity|]. split; [cbn; lia|].
      split; [repeat constructor|]. split; [discriminate|].
      intros l Hl. destruct (Js.truthy (ner_locations ents)) eqn:Ht;
        [|discriminate].
      injection Hl as <-.
      destruct (MarkFacts.ner_locations_clean ents) as [Htrim Hclean].
      split; [|split; [exact Htrim|split; [exact Hclean|]]].
      * intros He. rewrite He in Ht. discriminate.
      * now exists ents.
    + eexists. split; [reflexivity|]. split; [cbn; lia|].
      split; [repeat constructor|]. split; discriminate.
    + eexists. split; [reflexivity|]. split; [cbn; lia|].
      split; [repeat constructor; discriminate|]. split; discriminate.
  - eexists. split; [reflexivity|]. split; [cbn; lia|].
    split; [repeat constructor; discriminate|]. split.
    + intros _. split; [reflexivity | repeat constructor].
    + discriminate.
Qed.

End NerStep.

(* ================================================================= *)
(** ** Facts about the map component *)

Module Markers.
Import MapView.

Lemma rem_cases (index n : Z) :
  (0 <= index)%Z -> (0 < n)%Z ->
  (0 <= Z.rem index n < n)%Z /\ Z.rem (index + n) n = Z.rem index n.
Proof.
  intros Hi Hn. split.
  - apply Z.rem_bound_pos; lia.
  - rewrite !Z.rem_mod_nonneg by lia.
    rewrite <- (Z.mul_1_l n) at 1. apply Z.mod_add. lia.
Qed.

(** X24.  For the index of a list entry, [getDisasterPosition] cycles
    through its four positions and [getResourcePosition] through its five:
    the position is one of the list, it repeats with that period, and the
    default centre is never used. *)
Theorem markers_cycle_through_the_positions (index : Z) :
  (0 <= index)%Z ->
  (In (getDisasterPosition index) disasterPositions /\
   getDisasterPosition (index + 4) = getDisasterPosition index /\
   getDisasterPosition index <> defaultCenter) /\
  (In (getResourcePosition index) resourcePositions /\
   getResourcePosition (index + 5) = getResourcePosition index /\
   getResourcePosition index <> defaultCenter).
Proof.
  intros H. split.
  - destruct (rem_cases index 4 H ltac:(lia)) as [Hr Hp].
    unfold getDisasterPosition.
    change (Z.of_nat (List.length disasterPositions)) with 4%Z.
    rewrite Hp.
    assert (Hc : (Z.rem index 4 = 0 \/ Z.rem index 4 = 1 \/
                  Z.rem index 4 = 2 \/ Z.rem index 4 = 3)%Z) by lia.
    destruct Hc as [-> | [-> | [-> | ->]]]; cbn;
      (split; [tauto | split; [reflexivity | discriminate]]).
  - destruct (rem_cases index 5 H ltac:(lia)) as [Hr Hp].
    unfold getResourcePosition.
    change (Z.of_nat (List.length resourcePositions)) with 5%Z.
    rewrite Hp.
    assert (Hc : (Z.rem index 5 = 0 \/ Z.rem index 5 = 1 \/
                  Z.rem index 5 = 2 \/ Z.rem index 5 = 3 \/
                  Z.rem index 5 = 4)%Z) by lia.
    destruct Hc as [-> | [-> | [-> | [-> | ->]]]]; cbn;
      (split; [tauto | split; [reflexivity | discriminate]]).
Qed.

Lemma markers_cycle_through_the_positions_witness :
  (0 <= 6)%Z /\
  getDisasterPosition 6 = (407505 # 10000, -739934 # 10000)%Q /\
  getResourcePosition 6 = (407061 # 10000, -740087 # 10000)%Q /\
  In (getDisasterPosition 6) disasterPositions.
Proof.
  split; [lia|]. split; [reflexivity|]. split; [reflexivity|].
  exact (proj1 (proj1 (markers_cycle_through_the_positions 6 ltac:(lia)))).
Defined.

End Markers.

(* ================================================================= *)
(** ** Credential *)

Module Credential.
Import GeminiService.

(** X25.  A credential is in use exactly when one of the two environment
    variables is set to a non-empty text.  A non-empty GEMINI_API_KEY is
    the one used; when it is unset or empty, HUGGINGFACE_API_KEY is. *)
Theorem credential_choice (w : World) :
  (has_token w = true <->
   (exists k, GEMINI_API_KEY w = Some k /\ k <> "") \/
   (exists k, HUGGINGFACE_API_KEY w = Some k /\ k <> "")) /\
  (forall k, GEMINI_API_KEY w = Some k -> k <> "" -> hfToken w = Some k) /\
  (GEMINI_API_KEY w = None \/ GEMINI_API_KEY w = Some "" ->
   hfToken w = HUGGINGFACE_API_KEY w).
Proof.
  assert (Ht : forall k, Js.truthy k = true <-> k <> "").
  { intros k. unfold Js.truthy. rewrite negb_true_iff. apply String.eqb_neq. }
  unfold has_token, hfToken. split; [|split].
  - destruct (GEMINI_API_KEY w) as [g|].
    + destruct (Js.truthy g) eqn:Eg.
      * rewrite Eg. split; [|reflexivity].
        intros _. left. exists g. split; [reflexivity | now apply Ht].
      * destruct (HUGGINGFACE_API_KEY w) as [k|].
        -- rewrite Ht. split.
           ++ intros Hk. right. now exists k.
           ++ intros [(k' & [= <-] & Hk')|(k' & [= <-] & Hk')];
                [apply Ht in Hk'; congruence | exact Hk'].
        -- split; [discriminate|].
           intros [(k' & [= <-] & Hk')|(k' & [=] & _)].
           apply Ht in Hk'. congruence.
    + destruct (HUGGINGFACE_API_KEY w) as [k|].
      * rewrite Ht. split.
        -- intros Hk. right. now exists k.
        -- intros [(k' & [=] & _)|(k' & [= <-] & Hk')]. exact Hk'.
      * split; [discriminate|].
        intros [(k' & [=] & _)|(k' & [=] & _)].
  - intros k -> Hk. apply Ht in Hk. now rewrite Hk.
  - intros [->| ->]; reflexivity.
Qed.

End Credential.

(* ================================================================= *)
(** ** Accepted URLs and the requests of a verification *)

Module UrlFacts.
Import GeminiService.

Lemma scheme_step_table : forallb scheme_step_ok all_chars = true.
Proof. vm_compute. reflexivity. Qed.

Lemma scheme_letter (c x : ascii) :
  Js.lower_char c = x -> In x ["h"; "t"; "p"; "s"]%char ->
  Url.is_alpha c = true /\ Url.is_scheme_char c = true /\
  (Js.code c =? 58)%nat = false.
Proof.
  intros Hc Hx.
  pose proof (proj1 (forallb_forall _ _) scheme_step_table c
                (RegexFacts.all_chars_complete c)) as H.
  unfold scheme_step_ok in H. apply andb_true_iff in H as [H _].
  assert (E : existsb (Ascii.eqb (Js.lower_char c)) ["h"; "t"; "p"; "s"]%char
              = true).
  { apply existsb_exists. exists x. split; [exact Hx|].
    rewrite Hc. apply Ascii.eqb_refl. }
  rewrite E in H. apply andb_true_iff in H as [H H3].
  apply andb_true_iff in H as [H1 H2].
  now apply negb_true_iff in H3.
Qed.

Lemma scheme_colon (c : ascii) :
  Js.lower_char c = ":"%char -> (Js.code c =? 58)%nat = true.
Proof.
  intros Hc.
  pose proof (proj1 (forallb_forall _ _) scheme_step_table c
                (RegexFacts.all_chars_complete c)) as H.
  unfold scheme_step_ok in H. apply andb_true_iff in H as [_ H].
  now rewrite Hc in H.
Qed.

Lemma colon_code (c : ascii) : (Js.code c =? 58)%nat = true -> c = ":"%char.
Proof.
  intros H. apply Nat.eqb_eq in H. unfold Js.code in H.
  rewrite <- (ascii_nat_embedding c), H. reflexivity.
Qed.

(** The scheme state succeeds on a run of scheme characters that ends at
    a colon, and answers with their lower-case forms. *)
Lemma scheme_state_colon (l buffer s : list ascii) :
  Url.scheme_state l buffer = Some s ->
  exists scheme rest,
    l = scheme ++ ":"%char :: rest /\
    s = rev buffer ++ map Js.lower_char scheme.
Proof.
  revert buffer. induction l as [|c l IH]; intros buffer H; [discriminate|].
  cbn [Url.scheme_state] in H.
  destruct (Js.code c =? 58)%nat eqn:Ec.
  - injection H as <-. apply colon_code in Ec as ->.
    exists [], l. split; [reflexivity|]. now rewrite app_nil_r.
  - destruct (Url.is_scheme_char c); [|discriminate].
    apply IH in H as (scheme & rest & -> & ->).
    exists (c :: scheme), rest. split; [reflexivity|].
    cbn [rev map]. now rewrite <- app_assoc.
Qed.

Lemma scheme_of_begins (url scheme : string) :
  Url.scheme_of url = Some scheme ->
  begins_with (scheme ++ ":") (Url.preprocess url).
Proof.
  unfold Url.scheme_of, begins_with.
  destruct (Url.preprocess url) as [|c l]; [discriminate|].
  destruct (Url.is_alpha c); [|discriminate].
  destruct (Url.scheme_state l [Js.lower_char c]) as [s|] eqn:E; [|discriminate].
  intros [= <-]. apply scheme_state_colon in E as (run & rest & -> & ->).
  exists (c :: run ++ [":"%char]), rest. split.
  - cbn [app]. now rewrite <- app_assoc.
  - cbn [map rev app]. rewrite map_app. cbn [map].
    rewrite KeyFacts.list_of_append. cbn [list_ascii_of_string].
    now rewrite list_ascii_of_string_of_list_ascii.
Qed.

Lemma begins_http (l : list ascii) :
  begins_with "http:" l ->
  exists c1 c2 c3 c4 rest,
    l = c1 :: c2 :: c3 :: c4 :: ":"%char :: rest /\
    Js.lower_char c1 = "h"%char /\ Js.lower_char c2 = "t"%char /\
    Js.lower_char c3 = "t"%char /\ Js.lower_char c4 = "p"%char.
Proof.
  intros (head & rest & -> & H).
  destruct head as [|c1 [|c2 [|c3 [|c4 [|c5 [|c6 head]]]]]]; try discriminate H.
  cbn [map list_ascii_of_string] in H. injection H as H1 H2 H3 H4 H5.
  apply scheme_colon, colon_code in H5 as ->.
  now exists c1, c2, c3, c4, rest.
Qed.

Lemma begins_https (l : list ascii) :
  begins_with "https:" l ->
  exists c1 c2 c3 c4 c5 rest,
    l = c1 :: c2 :: c3 :: c4 :: c5 :: ":"%char :: rest /\
    Js.lower_char c1 = "h"%char /\ Js.lower_char c2 = "t"%char /\
    Js.lower_char c3 = "t"%char /\ Js.lower_char c4 = "p"%char /\
    Js.lower_char c5 = "s"%char.
Proof.
  intros (head & rest & -> & H).
  destruct head as [|c1 [|c2 [|c3 [|c4 [|c5 [|c6 [|c7 head]]]]]]];
    try discriminate H.
  cbn [map list_ascii_of_string] in H. injection H as H1 H2 H3 H4 H5 H6.
  apply scheme_colon, colon_code in H6 as ->.
  now exists c1, c2, c3, c4, c5, rest.
Qed.

Lemma http_scheme_of (url : string) :
  begins_with "http:" (Url.preprocess url) ->
  Url.scheme_of url = Some "http".
Proof.
  intros H. apply begins_http in H
    as (c1 & c2 & c3 & c4 & rest & E & H1 & H2 & H3 & H4).
  unfold Url.scheme_of. rewrite E.
  scheme_letter_step scheme_letter H1. scheme_letter_step scheme_letter H2. scheme_letter_step scheme_letter H3.
  scheme_letter_step scheme_letter H4. reflexivity.
Qed.

Lemma https_scheme_of (url : string) :
  begins_with "https:" (Url.preprocess url) ->
  Url.scheme_of url = Some "https".
Proof.
  intros H. apply begins_https in H
    as (c1 & c2 & c3 & c4 & c5 & rest & E & H1 & H2 & H3 & H4 & H5).
  unfold Url.scheme_of. rewrite E.
  scheme_letter_step scheme_letter H1. scheme_letter_step scheme_letter H2. scheme_letter_step scheme_letter H3.
  scheme_letter_step scheme_letter H4. scheme_letter_step scheme_letter H5. reflexivity.
Qed.

End UrlFacts.

Module UrlCheck.
Import GeminiService.

(** X26.  [isValidImageUrl] accepts a text exactly when the platform
    parses what follows the scheme and the text, its leading and trailing
    controls and spaces stripped and its tabs and newlines removed, begins
    with "http:" or "https:" in any case of letters. *)
Theorem accepted_urls_begin_with_http (w : World) (url : string) :
  isValidImageUrl w url = true <->
  url_rest_parses w url = true /\
  (begins_with "http:" (Url.preprocess url) \/
   begins_with "https:" (Url.preprocess url)).
Proof.
  unfold isValidImageUrl, Url.parse. split.
  - destruct (Url.scheme_of url) as [scheme|] eqn:E; [|discriminate].
    destruct (url_rest_parses w url); [|discriminate].
    cbn [Url.protocol]. intros H. split; [reflexivity|].
    apply UrlFacts.scheme_of_begins in E.
    apply orb_true_iff in H as [H|H]; apply String.eqb_eq in H;
      rewrite H in E; [now left | now right].
  - intros [Hrest [H|H]].
    + rewrite (UrlFacts.http_scheme_of url H), Hrest. reflexivity.
    + rewrite (UrlFacts.https_scheme_of url H), Hrest. reflexivity.
Qed.

(** X27.  The requests of one verification.  An invalid URL sends none.
    Without a credential the only request is one HEAD of the URL; with a
    credential it is one GET of the URL, followed by at most one POST to
    the image model, and never a HEAD. *)
Theorem verification_requests (w : World) (url : string) :
  (isValidImageUrl w url = false ->
   events_of (performImageVerification w url) = []) /\
  (has_token w = false ->
   events_of (performImageVerification w url) = [] \/
   events_of (performImageVerification w url) = [HttpHead url]) /\
  (has_token w = true ->
   events_of (performImageVerification w url) = [] \/
   events_of (performImageVerification w url) = [HttpGet url] \/
   events_of (performImageVerification w url) =
     [HttpGet url; HttpPost classify_url]).
Proof.
  repeat apply conj.
  - intros Hurl. run_services. now rewrite Hurl.
  - intros Htoken. run_services. rewrite Htoken. cbv beta iota.
    split_answers; auto.
  - intros Htoken. run_services. rewrite Htoken. cbv beta iota.
    split_answers; auto.
Qed.

End UrlCheck.

(* ================================================================= *)
(** ** The encoding of the marker icons *)

Module EscapeFacts.
Import Regex MapView.

Lemma encoding_table : forallb encoding_ok all_chars = true.
Proof. vm_compute. reflexivity. Qed.

Lemma digits_table : forallb digits_ok (seq 0 256) = true.
Proof. vm_compute. reflexivity. Qed.

Lemma encoding_char (c : ascii) : encoding_ok c = true.
Proof.
  apply (proj1 (forallb_forall _ _) encoding_table).
  apply RegexFacts.all_chars_complete.
Qed.

Lemma digits_byte (b : nat) : (b < 256)%nat -> digits_ok b = true.
Proof.
  intros H. apply (proj1 (forallb_forall _ _) digits_table).
  apply in_seq. lia.
Qed.

Lemma replace_with_loop_skip (fuel : nat) (r : regex) (by_ : list ascii -> string)
    (prev : option ascii) (c : ascii) (rest : list ascii) :
  match_here false r prev (c :: rest) = None ->
  replace_with_loop (S fuel) r by_ prev (c :: rest) =
  String c (replace_with_loop (S fuel) r by_ (Some c) rest).
Proof.
  intros H. cbn [replace_with_loop].
  rewrite (PartFacts.search_unfold false r prev (c :: rest)), H.
  destruct (search false r (Some c) rest) as [f|]; reflexivity.
Qed.

Lemma match_here_escape (prev : option ascii) (c : ascii) (s : list ascii) :
  Ascii.eqb "%" c = false -> match_here false escape prev (c :: s) = None.
Proof.
  intros H. unfold match_here, escape. cbn [seqs run]. unfold char_matches.
  now rewrite H.
Qed.

Lemma replace_with_loop_escape (fuel : nat) (prev : option ascii) (b : nat)
    (rest : list ascii) :
  (b < 256)%nat ->
  replace_with_loop (S fuel) escape replacer prev (percent b ++ rest) =
  String (ascii_of_nat b)
    (replace_with_loop fuel escape replacer (Some (hex_digit (b mod 16))) rest).
Proof.
  intros Hb. apply digits_byte in Hb. unfold digits_ok in Hb.
  apply andb_true_iff in Hb as [Hb Hv]. apply andb_true_iff in Hb as [Hh Hl].
  apply Nat.eqb_eq in Hv.
  cbn [replace_with_loop]. rewrite PartFacts.search_unfold.
  assert (Hm : match_here false escape prev (percent b ++ rest) = Some rest).
  { unfold match_here, escape, percent. cbn [seqs run app]. unfold char_matches.
    rewrite Ascii.eqb_refl. now rewrite Hh, Hl. }
  rewrite Hm.
  replace (List.length (percent b ++ rest) - List.length rest)%nat with 3%nat
    by (rewrite length_app; cbn [percent List.length]; lia).
  unfold percent at 1 2 3 4. cbn [app firstn skipped matched rest_after prev_after].
  unfold replacer. cbn [tl string_of_list_ascii String.append].
  rewrite Hv. reflexivity.
Qed.

Lemma replace_with_loop_bytes (fuel : nat) (prev : option ascii)
    (bytes : list nat) (rest : list ascii) (tail : string) :
  Forall (fun b => b < 256)%nat bytes ->
  (List.length bytes <= fuel)%nat ->
  (forall prev', replace_with_loop (fuel - List.length bytes) escape replacer
                   prev' rest = tail) ->
  replace_with_loop fuel escape replacer prev (flat_map percent bytes ++ rest) =
  (string_of_list_ascii (map ascii_of_nat bytes) ++ tail)%string.
Proof.
  intros Hall. revert fuel prev.
  induction Hall as [|b bytes Hb _ IH]; intros fuel prev Hfuel Htail.
  - cbn [flat_map app map string_of_list_ascii String.append].
    rewrite <- (Htail prev). now rewrite Nat.sub_0_r.
  - cbn [List.length] in Hfuel. destruct fuel as [|fuel]; [lia|].
    cbn [flat_map map string_of_list_ascii String.append].
    rewrite <- app_assoc, (replace_with_loop_escape _ _ _ _ Hb). f_equal.
    apply IH; [lia | exact Htail].
Qed.

Lemma percent_length (bytes : list nat) :
  List.length (flat_map percent bytes) = (3 * List.length bytes)%nat.
Proof.
  induction bytes as [|b l IH]; [reflexivity|].
  cbn [flat_map]. rewrite length_app, IH. cbn [percent List.length]. lia.
Qed.

Lemma replace_with_loop_encoded (cs : list ascii) :
  forall fuel prev,
    (List.length (flat_map encoded_char cs) < fuel)%nat ->
    replace_with_loop fuel escape replacer prev (flat_map encoded_char cs) =
    string_of_list_ascii (map ascii_of_nat (flat_map Base64.utf8 cs)).
Proof.
  induction cs as [|c cs IH]; intros fuel prev Hfuel.
  - destruct fuel; reflexivity.
  - cbn [flat_map] in *. rewrite length_app in Hfuel.
    pose proof (encoding_char c) as Hc. unfold encoding_ok in Hc.
    apply andb_true_iff in Hc as [Hplain Hbytes].
    rewrite map_app, PartFacts.string_of_app.
    unfold encoded_char in *. destruct (is_unreserved c) eqn:E.
    + apply andb_true_iff in Hplain as [Hsmall Hpercent].
      apply negb_true_iff in Hpercent.
      destruct fuel as [|fuel]; [lia|]. cbn [app].
      rewrite (replace_with_loop_skip _ _ _ _ _ _ (match_here_escape _ _ _ Hpercent)).
      unfold Base64.utf8. rewrite Hsmall.
      cbn [map string_of_list_ascii String.append].
      unfold Js.code. rewrite ascii_nat_embedding. f_equal.
      apply IH. cbn [List.length] in Hfuel. lia.
    + pose proof (percent_length (Base64.utf8 c)) as Hlen.
      apply replace_with_loop_bytes.
      * apply Forall_forall. intros b Hb.
        apply Nat.ltb_lt. now apply (proj1 (forallb_forall _ _) Hbytes).
      * lia.
      * intros prev'. apply IH. lia.
Qed.

Lemma code_of_byte (bytes : list nat) :
  Forall (fun b => b < 256)%nat bytes ->
  map Js.code (map ascii_of_nat bytes) = bytes.
Proof.
  induction 1 as [|b l Hb _ IH]; [reflexivity|].
  cbn [map]. unfold Js.code at 1. now rewrite nat_ascii_embedding, IH.
Qed.

Lemma utf8_bytes (cs : list ascii) :
  Forall (fun b => b < 256)%nat (flat_map Base64.utf8 cs).
Proof.
  induction cs as [|c cs IH]; [constructor|].
  cbn [flat_map]. apply Forall_app. split; [|exact IH].
  pose proof (encoding_char c) as Hc. unfold encoding_ok in Hc.
  apply andb_true_iff in Hc as [_ Hbytes].
  apply Forall_forall. intros b Hb.
  apply Nat.ltb_lt. now apply (proj1 (forallb_forall _ _) Hbytes).
Qed.

End EscapeFacts.

Module Icon.
Import MapView.

(** X28.  [base64EncodeUnicode] computes the base64 text of the UTF-8
    form of its argument, the text that [Buffer.from(s).toString('base64')]
    gives: percent-encoding the text and replacing every escape by the
    character of its byte yields the UTF-8 bytes, one character each. *)
Theorem base64EncodeUnicode_is_base64_of_utf8 (str : string) :
  replace_with escape replacer (encodeURIComponent str) =
    string_of_list_ascii
      (map ascii_of_nat (flat_map Base64.utf8 (list_ascii_of_string str))) /\
  base64EncodeUnicode str = Base64.of_string str.
Proof.
  assert (H : replace_with escape replacer (encodeURIComponent str) =
              string_of_list_ascii
                (map ascii_of_nat
                   (flat_map Base64.utf8 (list_ascii_of_string str)))).
  { unfold replace_with, encodeURIComponent.
    rewrite list_ascii_of_string_of_list_ascii.
    apply (EscapeFacts.replace_with_loop_encoded (list_ascii_of_string str)).
    unfold encoded_char. lia. }
  split; [exact H|].
  unfold base64EncodeUnicode, btoa, Base64.of_string. rewrite H.
  rewrite list_ascii_of_string_of_list_ascii.
  now rewrite (EscapeFacts.code_of_byte _ (EscapeFacts.utf8_bytes _)).
Qed.

End Icon.
